(** * The node editor of the JSON visualiser: model and properties

    Source: [src/features/modals/NodeModal/index.tsx].

    The file is an ES module, hence strict-mode code.  Its logic is the
    functions [normalizeNodeData], [jsonPathToString], [parseEditedContent],
    [updateJsonWithNodeValue] and [parseValueByType], the loop of
    [normalizedContent] that resolves a path, and the save handler
    [handleSave].  They are embedded below as Rocq functions over a model of
    the JavaScript values that JSON can describe; a thrown error is a result
    of its own ([completion]), and the stores that [handleSave] writes are a
    record passed in and out.

    What belongs to the JavaScript host and not to the repository is an
    interface: the Number type with its conversions ([HostNumber]), the
    built-in objects from which every value inherits members ([HostRealm]),
    and [JSON.parse] and [JSON.stringify] ([HostJSON]).  Every general
    theorem holds for every host.  Module [RefHost] implements the interface
    by a small JSON reader and printer and the member names of the standard
    prototypes; it instantiates the theorems at concrete documents.

    The value model:
    - an object is the list of its own enumerable properties in enumeration
      order.  A read [v[k]] of a key that is no own property of [v] gives what
      the realm has under [k] on the prototype chain of [v] ([constructor],
      [toString], [__proto__], ...), which can be a built-in object; an
      assignment [v[k] = x] to such a key makes an own property, unless the
      key is that of the inherited setter [__proto__], which makes none;
    - the realm has the shape of the standard one: the data properties of
      its prototypes can be shadowed (they are not frozen), [__proto__] is
      its only inherited accessor, and no array index names a setter;
    - a write to a built-in object changes the host, not the document.  No
      function of the file reads a property after it has written one, so
      that each call sees one realm, the one it starts in;
    - a string is a sequence of code units below 256;
    - a number segment of a path is a natural number;
    - [undefined] inside an array stands for a hole. *)

From Stdlib Require Import String Ascii List Bool NArith ZArith Lia.
From Stdlib Require Import Permutation DecimalString DecimalN DecimalPos.
Import ListNotations.
Local Open Scope string_scope.
Local Open Scope list_scope.

(** ** Host numbers *)

(** The Number type of the host.  The program never computes with numbers:
    it converts them from and to text and tests them for truthiness. *)
Class HostNumber : Type := {
  number : Type;
  (** [NaN] *)
  num_nan : number;
  (** the Number value of a natural number *)
  num_of_N : N -> number;
  (** [Number(s)] on a string: StringToNumber *)
  StringToNumber : string -> number;
  (** [String(n)] on a number: Number::toString *)
  NumberToString : number -> string;
  (** [!n]: true on [+0], [-0] and [NaN] *)
  num_falsy : number -> bool
}.

(** ** Values *)

Section Values.
Context {HN : HostNumber}.

#[warnings="-register-all"]
Inductive jsval : Type :=
| VUndef
| VNull
| VBool (b : bool)
| VNum (n : number)
| VStr (s : string)
| VArr (elems : list jsval)
| VObj (props : list (string * jsval)).

(** What a property read gives: a value of the kind above, or one of the
    built-in objects of the host (a prototype, a function), of type [B]. *)
Inductive ref_of (B : Type) : Type :=
| RVal (v : jsval)
| RHost (b : B).

(** Thrown values: the native errors the program can meet, and
    [new Error(message)]. *)
Inductive error : Type :=
| SyntaxError
| TypeError
| RangeError
| Error (message : string).

Inductive completion (A : Type) : Type :=
| Ok (a : A)
| Throw (e : error).

End Values.

Arguments RVal {HN B} v.
Arguments RHost {HN B} b.
Arguments Ok {A} a.
Arguments Throw {A} e.

#[warning="-uniform-inheritance"]
Coercion RVal : jsval >-> ref_of.

Declare Scope js_scope.
Delimit Scope js_scope with js.

Definition bind {A B : Type}
  (c : completion A) (f : A -> completion B) : completion B :=
  match c with
  | Ok a => f a
  | Throw e => Throw e
  end.

(** [try { c } catch { h }] *)
Definition try_catch {A : Type}
  (c : completion A) (h : error -> completion A) : completion A :=
  match c with
  | Ok a => Ok a
  | Throw e => h e
  end.

Notation "x <- c ;; k" := (bind c (fun x => k))
  (at level 61, c at next level, right associativity) : js_scope.
Local Open Scope js_scope.

(** ** Property keys *)

Definition string_of_N (n : N) : string :=
  NilEmpty.string_of_uint (N.to_uint n).

(** A property key is an array index when it is the canonical decimal text
    of an integer below [2^32 - 1]. *)
Definition array_index (s : string) : option N :=
  match NilEmpty.uint_of_string s with
  | Some d =>
      let n := N.of_uint d in
      if (String.eqb (string_of_N n) s && (n <? 4294967295)%N)%bool
      then Some n else None
  | None => None
  end.

(** A path segment, [string | number] in the source: a number segment is a
    natural number, as the graph builder produces them. *)
Inductive seg : Type :=
| SKey (s : string)
| SIdx (n : N).

(** ToPropertyKey *)
Definition property_key (s : seg) : string :=
  match s with
  | SKey k => k
  | SIdx n => string_of_N n
  end.

Section Objects.
Context {HN : HostNumber}.

(** Own property lookup. *)
Fixpoint obj_get (k : string) (props : list (string * jsval)) : option jsval :=
  match props with
  | [] => None
  | (k', v) :: rest => if String.eqb k k' then Some v else obj_get k rest
  end.

Fixpoint obj_replace (k : string) (v : jsval) (props : list (string * jsval))
  : list (string * jsval) :=
  match props with
  | [] => []
  | (k', v') :: rest =>
      if String.eqb k k' then (k, v) :: rest
      else (k', v') :: obj_replace k v rest
  end.

(** A new integer key goes among the integer keys, in ascending order;
    they come before the other keys. *)
Fixpoint obj_insert_index (n : N) (k : string) (v : jsval)
  (props : list (string * jsval)) : list (string * jsval) :=
  match props with
  | [] => [(k, v)]
  | (k', v') :: rest =>
      match array_index k' with
      | Some m =>
          if (m <? n)%N then (k', v') :: obj_insert_index n k v rest
          else (k, v) :: props
      | None => (k, v) :: props
      end
  end.

(** The own property [k] of an object is given the value [v]: an existing
    property keeps its place, a new one is added in enumeration order. *)
Definition obj_set (k : string) (v : jsval) (props : list (string * jsval))
  : list (string * jsval) :=
  match obj_get k props with
  | Some _ => obj_replace k v props
  | None =>
      match array_index k with
      | Some n => obj_insert_index n k v props
      | None => props ++ [(k, v)]
      end
  end.

(** [a[i] = x]: past the end the array grows, leaving holes. *)
Fixpoint arr_set (i : nat) (x : jsval) (elems : list jsval) : list jsval :=
  match i, elems with
  | O, [] => [x]
  | O, _ :: rest => x :: rest
  | S i', [] => VUndef :: arr_set i' x []
  | S i', y :: rest => y :: arr_set i' x rest
  end.

(** [a.length = n]: the elements from [n] on go, or holes come up to [n]. *)
Definition arr_resize (n : nat) (elems : list jsval) : list jsval :=
  firstn n elems ++ repeat VUndef (n - length elems).

(** The own property [k] of a value: a property of an object; an element of
    an array (a hole is read as [undefined]), or its [length]; a character
    of a string, or its [length]. *)
Definition own_get (v : jsval) (k : string) : option jsval :=
  match v with
  | VObj props => obj_get k props
  | VArr elems =>
      match array_index k with
      | Some n => nth_error elems (N.to_nat n)
      | None =>
          if String.eqb k "length"
          then Some (VNum (num_of_N (N.of_nat (length elems))))
          else None
      end
  | VStr s =>
      match array_index k with
      | Some n =>
          match String.get (N.to_nat n) s with
          | Some c => Some (VStr (String c EmptyString))
          | None => None
          end
      | None =>
          if String.eqb k "length"
          then Some (VNum (num_of_N (N.of_nat (String.length s))))
          else None
      end
  | _ => None
  end.

Fixpoint index_entries (i : N) (elems : list jsval) : list (string * jsval) :=
  match elems with
  | [] => []
  | VUndef :: rest => index_entries (N.succ i) rest
  | x :: rest => (string_of_N i, x) :: index_entries (N.succ i) rest
  end.

Fixpoint char_entries (i : N) (s : string) : list (string * jsval) :=
  match s with
  | EmptyString => []
  | String c rest =>
      (string_of_N i, VStr (String c EmptyString)) :: char_entries (N.succ i) rest
  end.

(** The own enumerable string-keyed properties of [ToObject(v)]. *)
Definition own_entries (v : jsval) : list (string * jsval) :=
  match v with
  | VObj props => props
  | VArr elems => index_entries 0 elems
  | VStr s => char_entries 0 s
  | _ => []
  end.

(** [Object.entries(v)] *)
Definition Object_entries (v : jsval) : completion (list (string * jsval)) :=
  match v with
  | VUndef | VNull => Throw TypeError
  | _ => Ok (own_entries v)
  end.

(** [{ ...v }] *)
Definition spread (v : jsval) : list (string * jsval) := own_entries v.

Definition typeof (v : jsval) : string :=
  match v with
  | VUndef => "undefined"
  | VNull => "object"
  | VBool _ => "boolean"
  | VNum _ => "number"
  | VStr _ => "string"
  | VArr _ | VObj _ => "object"
  end.

Definition ToBoolean (v : jsval) : bool :=
  match v with
  | VUndef | VNull => false
  | VBool b => b
  | VNum n => negb (num_falsy n)
  | VStr s => negb (String.eqb s "")
  | VArr _ | VObj _ => true
  end.

Definition Array_isArray (v : jsval) : bool :=
  match v with
  | VArr _ => true
  | _ => false
  end.

(** [Array.prototype.join], over the texts of the elements *)
Fixpoint join (sep : string) (parts : list string) : string :=
  match parts with
  | [] => ""
  | [p] => p
  | p :: rest => p ++ sep ++ join sep rest
  end.

(** ToString.  An array is the join of its elements, where [undefined] and
    [null] give the empty text; a plain object is ["[object Object]"]. *)
Fixpoint ToString (v : jsval) : string :=
  match v with
  | VUndef => "undefined"
  | VNull => "null"
  | VBool true => "true"
  | VBool false => "false"
  | VNum n => NumberToString n
  | VStr s => s
  | VArr elems =>
      join ","
        ((fix texts (l : list jsval) : list string :=
            match l with
            | [] => []
            | VUndef :: rest => "" :: texts rest
            | VNull :: rest => "" :: texts rest
            | x :: rest => ToString x :: texts rest
            end) elems)
  | VObj _ => "[object Object]"
  end.

(** [Number(v)]: ToNumber, through ToPrimitive on arrays and objects. *)
Definition ToNumber (v : jsval) : number :=
  match v with
  | VUndef => num_nan
  | VNull => num_of_N 0
  | VBool true => num_of_N 1
  | VBool false => num_of_N 0
  | VNum n => n
  | VStr s => StringToNumber s
  | VArr _ | VObj _ => StringToNumber (ToString v)
  end.

(** [v === null], [v === "s"] and [v === true] *)
Definition is_null (v : jsval) : bool :=
  match v with
  | VNull => true
  | _ => false
  end.

Definition is_string (v : jsval) (s : string) : bool :=
  match v with
  | VStr s' => String.eqb s' s
  | _ => false
  end.

Definition is_true (v : jsval) : bool :=
  match v with
  | VBool true => true
  | _ => false
  end.

End Objects.

(** ** The built-in objects of the host *)

(** The kinds of value that have members; each kind has its prototype
    ([Object.prototype], [Array.prototype], ...). *)
Inductive receiver : Type :=
| OfObject
| OfArray
| OfString
| OfNumber
| OfBoolean.

(** What an assignment [o[k] = x] meets on the prototype chain of [o] when
    [k] is no own property of [o]: nothing or a data property, and then the
    assignment makes an own property of [o]; or the setter of [__proto__],
    which makes none. *)
Inductive inherited_write : Type :=
| Creates
| SetsPrototype.

Class HostRealm {HN : HostNumber} : Type := {
  (** the built-in objects: prototypes, constructors, methods *)
  builtin : Type;
  (** [v[k]] when [k] is no own property of [v]: what the prototype chain
      of the kind of [v] has under [k], [undefined] when it has nothing *)
  inherited_get : receiver -> string -> ref_of builtin;
  (** [v[k] = x] when [k] is no own property of [v] *)
  inherited_put : receiver -> string -> inherited_write;
  (** [b[k]] on a built-in object; an accessor such as [caller] throws *)
  host_get : builtin -> string -> completion (ref_of builtin);
  (** [b[k] = x] on a built-in object: it takes the property, or throws *)
  host_put : builtin -> string -> jsval -> completion unit;
  (** [typeof b === "object"]: true of a prototype, false of a function *)
  host_is_object : builtin -> bool;
  (** [{ ...b }]: the own enumerable properties of a built-in object *)
  host_entries : builtin -> list (string * jsval);
  (** [String(JSON.stringify(b, null, 2))]: the text of a built-in object,
      ["undefined"] for a function *)
  host_stringify : builtin -> string;
  (** the array length a number stands for, an integer from 0 to
      [2^32 - 1]; [None] when [a.length = n] throws its RangeError *)
  array_length_of : number -> option N
}.

#[warning="-notation-for-abbreviation"]
Notation ref := (ref_of builtin).

Section Access.
Context {HN : HostNumber} {HR : HostRealm}.

Definition receiver_of (v : jsval) : receiver :=
  match v with
  | VArr _ => OfArray
  | VStr _ => OfString
  | VNum _ => OfNumber
  | VBool _ => OfBoolean
  | _ => OfObject
  end.

(** [v[k]], a property read: an own property, else an inherited member. *)
Definition GetV (v : ref) (k : string) : completion ref :=
  match v with
  | RHost b => host_get b k
  | RVal VUndef | RVal VNull => Throw TypeError
  | RVal x =>
      Ok (match own_get x k with
          | Some y => RVal y
          | None => inherited_get (receiver_of x) k
          end)
  end.

(** [v[k] = x] in strict mode; the result is [v] after the write.
    - On [undefined] and [null] the write throws.
    - On an object an own property takes the value; a key that is no own
      property is added, unless it is that of the inherited setter.
    - On an array an index takes the value; [length] cuts or extends the
      array, or throws; any other key names a property beside the elements,
      which [JSON.stringify] does not print: the elements stay as they are.
    - On a primitive the write throws, unless the key is that of the
      inherited setter, which does nothing to a primitive. *)
Definition PutV (v : ref) (k : string) (x : jsval) : completion ref :=
  match v with
  | RHost b => _ <- host_put b k x ;; Ok (RHost b)
  | RVal VUndef | RVal VNull => Throw TypeError
  | RVal (VObj props) =>
      match obj_get k props, inherited_put OfObject k with
      | None, SetsPrototype => Ok (RVal (VObj props))
      | _, _ => Ok (RVal (VObj (obj_set k x props)))
      end
  | RVal (VArr elems) =>
      match array_index k with
      | Some n => Ok (RVal (VArr (arr_set (N.to_nat n) x elems)))
      | None =>
          if String.eqb k "length" then
            match array_length_of (ToNumber x) with
            | Some n => Ok (RVal (VArr (arr_resize (N.to_nat n) elems)))
            | None => Throw RangeError
            end
          else Ok (RVal (VArr elems))
      end
  | RVal p =>
      match own_get p k, inherited_put (receiver_of p) k with
      | None, SetsPrototype => Ok (RVal p)
      | _, _ => Throw TypeError
      end
  end.

(** *** Objects that the program makes *)

(** The prototype of an object made by [{}] or [{ ...x }]: the standard
    one, until an assignment to [__proto__] replaces it by [null] or by the
    object or array assigned. *)
Inductive prototype : Type :=
| StandardPrototype
| NullPrototype
| ValuePrototype (p : jsval).

Record made : Type := mkMade {
  props_of : list (string * jsval);
  proto_of : prototype
}.

(** [{ ...props }] *)
Definition literal (props : list (string * jsval)) : made :=
  {| props_of := props; proto_of := StandardPrototype |}.

(** What an assignment to a key that is no own property finds above an
    object of the given prototype. *)
Definition found_above (proto : prototype) (k : string) : inherited_write :=
  match proto with
  | StandardPrototype => inherited_put OfObject k
  | NullPrototype => Creates
  | ValuePrototype p =>
      match own_get p k with
      | Some _ => Creates
      | None => inherited_put (receiver_of p) k
      end
  end.

(** [obj[k] = x] on an object the program has made. *)
Definition assign (obj : made) (k : string) (x : jsval) : made :=
  match obj_get k (props_of obj), found_above (proto_of obj) k with
  | None, SetsPrototype =>
      {| props_of := props_of obj;
         proto_of := match x with
                     | VNull => NullPrototype
                     | VArr _ | VObj _ => ValuePrototype x
                     | _ => proto_of obj
                     end |}
  | _, _ => {| props_of := obj_set k x (props_of obj); proto_of := proto_of obj |}
  end.

End Access.

(** ** The JSON built-ins of the host *)

Class HostJSON {HN : HostNumber} : Type := {
  (** [JSON.parse(text)]; [None] when it throws its SyntaxError *)
  JSON_parse : string -> option jsval;
  (** [JSON.stringify(v, null, 2)] on a value other than [undefined] *)
  JSON_stringify : jsval -> string
}.

(** ** Rows, paths and the editor's functions *)

Section Editor.
Context {HN : HostNumber} {HR : HostRealm} {HJ : HostJSON}.

(** [NodeRow]: the fields the editor reads. *)
Record NodeRow : Type := mkRow {
  key : option string;
  value : jsval;
  type : string
}.

(** [NodeData]: the rows of the selected node and its path. *)
Record NodeData : Type := mkNode {
  text : list NodeRow;
  path : option (list seg)
}.

(** [JSON.stringify(v, null, 2)] on any value: [undefined] gives
    [undefined], which is [None] here. *)
Definition JSON_stringify_any (v : jsval) : option string :=
  match v with
  | VUndef => None
  | _ => Some (JSON_stringify v)
  end.

(** [JSON.stringify(x, null, 2)] on what a read has given, other than
    [undefined]. *)
Definition JSON_stringify_ref (x : ref) : string :=
  match x with
  | RVal v => JSON_stringify v
  | RHost b => host_stringify b
  end.

(** Truthiness of [row.key]: a string that is not empty. *)
Definition key_truthy (k : option string) : bool :=
  match k with
  | Some s => negb (String.eqb s "")
  | None => false
  end.

(** [rows.length === 1 && !rows[0].key]: the only row, when it has no key. *)
Definition single_unkeyed (rows : list NodeRow) : option NodeRow :=
  match rows with
  | [r] => if key_truthy (key r) then None else Some r
  | _ => None
  end.

(** [if (row.key) obj[row.key] = v] *)
Definition assign_keyed (obj : made) (k : option string) (v : jsval) : made :=
  match k with
  | Some s => if key_truthy k then assign obj s v else obj
  | None => obj
  end.

(** The object [obj] that [normalizeNodeData] fills from the rows. *)
Definition normalized_obj (nodeRows : list NodeRow) : list (string * jsval) :=
  props_of
    (fold_left
       (fun obj row =>
          if (negb (String.eqb (type row) "array")
              && negb (String.eqb (type row) "object"))%bool
          then assign_keyed obj (key row) (value row)
          else obj)
       nodeRows (literal [])).

Definition normalizeNodeData (nodeRows : list NodeRow) : string :=
  match nodeRows with
  | [] => "{}"
  | _ :: _ =>
      match single_unkeyed nodeRows with
      | Some r => ToString (value r)
      | None => JSON_stringify (VObj (normalized_obj nodeRows))
      end
  end.

(** [jsonPathToString]: the path in the format [$["customer"][0]]. *)
Definition jsonPathToString (path : option (list seg)) : string :=
  match path with
  | None | Some [] => "$"
  | Some p =>
      let quote_mark := String (ascii_of_N 34) EmptyString in
      String.append "$["
        (String.append
           (join "]["
              (map (fun s =>
                      match s with
                      | SIdx n => string_of_N n
                      | SKey k => String.append quote_mark (String.append k quote_mark)
                      end) p))
           "]")
  end.

(** [originalRows.find(row => row.key === key)] *)
Definition find_row (k : string) (originalRows : list NodeRow) : option NodeRow :=
  find (fun row => match key row with
                   | Some s => String.eqb s k
                   | None => false
                   end) originalRows.

Definition inferType (original : option NodeRow) (v : jsval) : string :=
  let inferredType :=
    match original with
    | Some r => if String.eqb (type r) "" then "string" else type r
    | None => "string"
    end in
  if Array_isArray v then "array"
  else if (negb (is_null v) && String.eqb (typeof v) "object")%bool then "object"
  else if String.eqb (typeof v) "boolean" then "boolean"
  else if String.eqb (typeof v) "number" then "number"
  else inferredType.

Definition parseEditedContent (content : string) (originalRows : list NodeRow)
  : completion (list NodeRow) :=
  try_catch
    (match JSON_parse content with
     | None => Throw SyntaxError
     | Some parsed =>
         match single_unkeyed originalRows with
         | Some r0 => Ok [ {| key := key r0; value := parsed; type := type r0 |} ]
         | None =>
             entries <- Object_entries parsed ;;
             Ok (map (fun kv =>
                        {| key := Some (fst kv);
                           value := snd kv;
                           type := inferType (find_row (fst kv) originalRows) (snd kv) |})
                     entries)
         end
     end)
    (fun _ => Throw (Error "Invalid JSON format")).

Definition parseValueByType (v : jsval) (t : string) : jsval :=
  if (is_null v || is_string v "null")%bool then VNull
  else if String.eqb t "boolean"
       then VBool (is_true v || is_string v "true" || is_string v "1")
  else if String.eqb t "number" then VNum (ToNumber v)
  else if (String.eqb t "object" || String.eqb t "array")%bool then v
  else v.

(** [parseValueByType] as the earlier snapshot of the file has it: no test
    of [value === true], no case for ["object"] and ["array"]. *)
Definition parseValueByType_earlier (v : jsval) (t : string) : jsval :=
  if (is_null v || is_string v "null")%bool then VNull
  else if String.eqb t "boolean"
       then VBool (is_string v "true" || is_string v "1")
  else if String.eqb t "number" then VNum (ToNumber v)
  else v.

(** [x && typeof x === "object"], as a condition *)
Definition truthy_object (x : jsval) : bool :=
  (ToBoolean x && String.eqb (typeof x) "object")%bool.


(** [x && typeof x === "object" ? { ...x } : {}], on what a read has given *)
Definition copy_of_object (x : ref) : list (string * jsval) :=
  match x with
  | RVal v => if truthy_object v then spread v else []
  | RHost b => if host_is_object b then host_entries b else []
  end.

(** [newValue.forEach(row => { if (row.key) obj[row.key] =
    parseValueByType(row.value, row.type) })], on [obj = { ...props }] *)
Definition merge_rows (props : list (string * jsval)) (newValue : list NodeRow)
  : list (string * jsval) :=
  props_of
    (fold_left
       (fun o row => assign_keyed o (key row) (parseValueByType (value row) (type row)))
       newValue (literal props)).

(** The write at [lastKey], on the value [current] the loop has reached. *)
Definition write_target (newValue : list NodeRow) (current : ref)
  (lastKey : string) : completion ref :=
  match single_unkeyed newValue with
  | Some r => PutV current lastKey (parseValueByType (value r) (type r))
  | None =>
      existing <- GetV current lastKey ;;
      PutV current lastKey (VObj (merge_rows (copy_of_object existing) newValue))
  end.

(** [parsed] is a tree: [JSON.parse] shares nothing between two places.  The
    write inside the object that the loop reached is therefore the
    replacement of that object along the path, where the path goes through
    own properties; a built-in object is not part of the document, and
    what is written inside it stays with the host. *)
Definition put_back (parent : ref) (k : string) (child : ref) : ref :=
  match parent, child with
  | RVal (VObj props), RVal c => RVal (VObj (obj_replace k c props))
  | RVal (VArr elems), RVal c =>
      match array_index k with
      | Some n =>
          if (N.to_nat n <? length elems)%nat
          then RVal (VArr (arr_set (N.to_nat n) c elems))
          else parent
      | None => parent
      end
  | _, _ => parent
  end.

(** The loop [current = current[path[i]]] over all segments but the last,
    then the write at the last one; the result is [parsed] after the write. *)
Fixpoint navigate_and_write (current : ref) (s : seg) (rest : list seg)
  (write : ref -> string -> completion ref) : completion ref :=
  match rest with
  | [] => write current (property_key s)
  | s' :: rest' =>
      child <- GetV current (property_key s) ;;
      child' <- navigate_and_write child s' rest' write ;;
      Ok (put_back current (property_key s) child')
  end.

(** The [catch] of this function logs and throws the same error again. *)
Definition updateJsonWithNodeValue (json : string) (path : option (list seg))
  (newValue : list NodeRow) : completion (option string) :=
  match JSON_parse json with
  | None => Throw SyntaxError
  | Some parsed =>
      match path with
      | None | Some [] =>
          match single_unkeyed newValue with
          | Some r => Ok (JSON_stringify_any (value r))
          | None =>
              let existingRoot := if truthy_object parsed then parsed else VObj [] in
              Ok (Some (JSON_stringify
                          (VObj (merge_rows (spread existingRoot) newValue))))
          end
      | Some (s :: rest) =>
          parsed' <- navigate_and_write (RVal parsed) s rest (write_target newValue) ;;
          Ok (Some (JSON_stringify_ref parsed'))
      end
  end.

(** The loop of [normalizedContent], [current = current?.[path[i]]], inside
    its [try]: a read of [undefined] or [null] gives [undefined], and so
    does, here, a read that throws, after which the function goes on as it
    does after [undefined]. *)
Fixpoint resolve (current : ref) (p : list seg) : ref :=
  match p with
  | [] => current
  | s :: rest =>
      match GetV current (property_key s) with
      | Ok child => resolve child rest
      | Throw _ => resolve (RVal VUndef) rest
      end
  end.

(** ** The stores and the save handler *)

Inductive toast : Type :=
| toast_success (message : string)
| toast_error (e : error).

(** The stores the handler touches: the document ([useJson]), its mirror
    ([useFile]), the text last given to [setGraph], the toasts shown, and
    the [isEditing] flag.  A text is [None] after [undefined] was stored. *)
Record Store : Type := mkStore {
  json : option string;
  contents : option string;
  graph : option string;
  toasts : list toast;
  isEditing : bool
}.

(** [nodeData?.text ?? []] and [nodeData?.path] *)
Definition text_of (nodeData : option NodeData) : list NodeRow :=
  match nodeData with
  | Some d => text d
  | None => []
  end.

Definition path_of (nodeData : option NodeData) : option (list seg) :=
  match nodeData with
  | Some d => path d
  | None => None
  end.

(** [handleSave].  The error toast shows [error.message], or a fixed text
    when that is empty.  Selecting the edited node again after the graph was
    rebuilt is left to the graph store. *)
Definition handleSave (nodeData : option NodeData) (editedContent : string)
  (st : Store) : Store :=
  let attempt :=
    newNodeRows <- parseEditedContent editedContent (text_of nodeData) ;;
    match json st with
    | Some j => updateJsonWithNodeValue j (path_of nodeData) newNodeRows
    | None => Throw SyntaxError
    end in
  match attempt with
  | Ok updatedJson =>
      {| json := updatedJson;
         contents := updatedJson;
         graph := updatedJson;
         toasts := toasts st ++ [toast_success "Node value updated!"];
         isEditing := false |}
  | Throw e =>
      {| json := json st;
         contents := contents st;
         graph := graph st;
         toasts := toasts st ++ [toast_error e];
         isEditing := isEditing st |}
  end.

End Editor.

(** ** The rest of the component and the earlier snapshot *)

Section EditorRest.
Context {HN : HostNumber} {HR : HostRealm} {HJ : HostJSON}.

(** [nodeData.path ?? []] *)
Definition path_or_root (nd : NodeData) : list seg :=
  match path nd with
  | Some p => p
  | None => []
  end.

(** [normalizedContent]: the text shown for the selected node.  The value
    found at the node's path in the stored document is printed when there is
    one; when the document does not parse or the path resolves to
    [undefined], the text comes from the rows.  The text is kept as
    [JSON.parse] reads it when it is saved, so that [undefined], the result
    of [JSON.stringify] on a function, is the text ["undefined"]. *)
Definition normalizedContent (nodeData : option NodeData) (st : Store) : string :=
  match nodeData with
  | None => "{}"
  | Some nd =>
      let from_rows := normalizeNodeData (text nd) in
      match json st with
      | None => from_rows
      | Some j =>
          match JSON_parse j with
          | None => from_rows
          | Some parsed =>
              match resolve parsed (path_or_root nd) with
              | RVal VUndef => from_rows
              | current => JSON_stringify_ref current
              end
          end
      end
  end.

(** The state of the dialog: the stores, with the [isEditing] flag, and the
    text of the edit box. *)
Record Dialog : Type := mkDialog {
  stores : Store;
  editedContent : string
}.

Definition set_editing (b : bool) (st : Store) : Store :=
  {| json := json st;
     contents := contents st;
     graph := graph st;
     toasts := toasts st;
     isEditing := b |}.

(** [handleEditClick]: the edit box takes the text shown. *)
Definition handleEditClick (nodeData : option NodeData) (dlg : Dialog) : Dialog :=
  {| stores := set_editing true (stores dlg);
     editedContent := normalizedContent nodeData (stores dlg) |}.

(** [handleCancel] *)
Definition handleCancel (dlg : Dialog) : Dialog :=
  {| stores := set_editing false (stores dlg);
     editedContent := "" |}.

(** A click on Save: [handleSave] on the text of the edit box, which stays. *)
Definition save_click (nodeData : option NodeData) (dlg : Dialog) : Dialog :=
  {| stores := handleSave nodeData (editedContent dlg) (stores dlg);
     editedContent := editedContent dlg |}.

(** *** The earlier snapshot ([src/unnamed/part_000]) *)

(** [original?.type || "string"] *)
Definition declared_type (original : option NodeRow) : string :=
  match original with
  | Some r => if String.eqb (type r) "" then "string" else type r
  | None => "string"
  end.

(** [parseEditedContent] there: every value becomes its text, by
    [String(...)], and the type tag is never read off the value. *)
Definition parseEditedContent_earlier (content : string)
  (originalRows : list NodeRow) : completion (list NodeRow) :=
  try_catch
    (match JSON_parse content with
     | None => Throw SyntaxError
     | Some parsed =>
         match single_unkeyed originalRows with
         | Some r0 =>
             Ok [ {| key := key r0; value := VStr (ToString parsed); type := type r0 |} ]
         | None =>
             entries <- Object_entries parsed ;;
             Ok (map (fun kv =>
                        {| key := Some (fst kv);
                           value := VStr (ToString (snd kv));
                           type := declared_type (find_row (fst kv) originalRows) |})
                     entries)
         end
     end)
    (fun _ => Throw (Error "Invalid JSON format")).


Definition merge_rows_earlier (props : list (string * jsval))
  (newValue : list NodeRow) : list (string * jsval) :=
  props_of
    (fold_left
       (fun o row =>
          assign_keyed o (key row) (parseValueByType_earlier (value row) (type row)))
       newValue (literal props)).

(** The write at [lastKey] there: a keyed row set fills a new object. *)
Definition write_target_earlier (newValue : list NodeRow) (current : ref)
  (lastKey : string) : completion ref :=
  match single_unkeyed newValue with
  | Some r => PutV current lastKey (parseValueByType_earlier (value r) (type r))
  | None => PutV current lastKey (VObj (merge_rows_earlier [] newValue))
  end.

Definition updateJsonWithNodeValue_earlier (json : string)
  (path : option (list seg)) (newValue : list NodeRow)
  : completion (option string) :=
  match JSON_parse json with
  | None => Throw SyntaxError
  | Some parsed =>
      match path with
      | None | Some [] =>
          match single_unkeyed newValue with
          | Some r => Ok (JSON_stringify_any (value r))
          | None => Ok (Some (JSON_stringify (VObj (merge_rows_earlier [] newValue))))
          end
      | Some (s :: rest) =>
          parsed' <- navigate_and_write (RVal parsed) s rest
                       (write_target_earlier newValue) ;;
          Ok (Some (JSON_stringify_ref parsed'))
      end
  end.

(** [normalizedContent] there: always from the rows. *)
Definition normalizedContent_earlier (nodeData : option NodeData) : string :=
  normalizeNodeData (text_of nodeData).

(** [handleSave] there. *)
Definition handleSave_earlier (nodeData : option NodeData)
  (editedContent : string) (st : Store) : Store :=
  let attempt :=
    newNodeRows <- parseEditedContent_earlier editedContent (text_of nodeData) ;;
    match json st with
    | Some j => updateJsonWithNodeValue_earlier j (path_of nodeData) newNodeRows
    | None => Throw SyntaxError
    end in
  match attempt with
  | Ok updatedJson =>
      {| json := updatedJson;
         contents := updatedJson;
         graph := updatedJson;
         toasts := toasts st ++ [toast_success "Node value updated!"];
         isEditing := false |}
  | Throw e =>
      {| json := json st;
         contents := contents st;
         graph := graph st;
         toasts := toasts st ++ [toast_error e];
         isEditing := isEditing st |}
  end.

End EditorRest.
(** ** A reference host

    Numbers are exact decimals [m * 10^e] (with [NaN] and the infinities):
    the rounding of a literal to a double and the sign of zero are left out.
    The JSON reader and printer follow ECMA-404 and the layout of
    [JSON.stringify(v, null, 2)].  The realm has the members of the standard
    prototypes under their names; of a member it knows no more than that it
    is a function. *)

Module RefHost.

Local Open Scope char_scope.

Inductive rnum : Type :=
| RNaN
| RInf (negative : bool)
| RFin (m : Z) (e : Z).

Definition code (c : ascii) : N := N_of_ascii c.

Definition is_digit (c : ascii) : bool :=
  ((48 <=? code c) && (code c <=? 57))%N.

Definition digit_value (c : ascii) : Z := Z.of_N (code c) - 48.

Definition digits_value (ds : list ascii) : Z :=
  fold_left (fun acc c => 10 * acc + digit_value c)%Z ds 0%Z.

Fixpoint drop_zeros (ds : list ascii) : list ascii :=
  match ds with
  | "0" :: rest => drop_zeros rest
  | _ => ds
  end.

(** The number [ds * 10^e], sign [neg], without the trailing zeros of [ds]. *)
Definition rnum_of_digits (neg : bool) (ds : list ascii) (e : Z) : rnum :=
  let kept := drop_zeros (rev ds) in
  match kept with
  | [] => RFin 0 0
  | _ =>
      let m := digits_value (rev kept) in
      if (m =? 0)%Z then RFin 0 0
      else RFin (if neg then - m else m)
                (e + Z.of_nat (length ds) - Z.of_nat (length kept))
  end.

Definition digits_of_N (n : N) : list ascii :=
  list_ascii_of_string (string_of_N n).

Fixpoint span_digits (cs : list ascii) : list ascii * list ascii :=
  match cs with
  | c :: rest =>
      if is_digit c
      then let (ds, r) := span_digits rest in (c :: ds, r)
      else ([], cs)
  | [] => ([], [])
  end.

(** An exponent part [e], [e+] or [e-] followed by digits, when there is one. *)
Definition scan_exponent (cs : list ascii) : Z * list ascii :=
  match cs with
  | c :: rest =>
      if (Ascii.eqb c "e" || Ascii.eqb c "E")%bool then
        let '(neg, rest') :=
          match rest with
          | "+" :: r => (false, r)
          | "-" :: r => (true, r)
          | _ => (false, rest)
          end in
        match span_digits rest' with
        | ([], _) => (0%Z, cs)
        | (ds, r) => ((if neg then - digits_value ds else digits_value ds)%Z, r)
        end
      else (0%Z, cs)
  | [] => (0%Z, cs)
  end.

Record scanned : Type := mkScanned {
  int_digits : list ascii;
  has_dot : bool;
  frac_digits : list ascii;
  exponent : Z;
  remainder : list ascii
}.

Definition scan_decimal (cs : list ascii) : scanned :=
  let (ints, r1) := span_digits cs in
  let '(dot, fracs, r2) :=
    match r1 with
    | "." :: r => let (fs, r') := span_digits r in (true, fs, r')
    | _ => (false, [], r1)
    end in
  let (ex, r3) := scan_exponent r2 in
  mkScanned ints dot fracs ex r3.

Definition scanned_value (neg : bool) (s : scanned) : rnum :=
  rnum_of_digits neg (int_digits s ++ frac_digits s)
    (exponent s - Z.of_nat (length (frac_digits s))).

(** *** StringToNumber *)

Definition is_space (c : ascii) : bool :=
  let n := code c in
  ((n =? 9) || (n =? 10) || (n =? 11) || (n =? 12) || (n =? 13)
   || (n =? 32) || (n =? 160))%N.

Fixpoint drop_space (cs : list ascii) : list ascii :=
  match cs with
  | c :: rest => if is_space c then drop_space rest else cs
  | [] => []
  end.

Definition trim (cs : list ascii) : list ascii :=
  rev (drop_space (rev (drop_space cs))).

Definition radix_digit (radix : N) (c : ascii) : option N :=
  let n := code c in
  let d :=
    if ((48 <=? n) && (n <=? 57))%N then Some (n - 48)%N
    else if ((97 <=? n) && (n <=? 102))%N then Some (n - 87)%N
    else if ((65 <=? n) && (n <=? 70))%N then Some (n - 55)%N
    else None in
  match d with
  | Some x => if (x <? radix)%N then Some x else None
  | None => None
  end.

Fixpoint radix_value (radix : N) (acc : N) (cs : list ascii) : option N :=
  match cs with
  | [] => Some acc
  | c :: rest =>
      match radix_digit radix c with
      | Some d => radix_value radix (radix * acc + d)%N rest
      | None => None
      end
  end.

Definition radix_literal (radix : N) (cs : list ascii) : rnum :=
  match cs with
  | [] => RNaN
  | _ =>
      match radix_value radix 0 cs with
      | Some n => rnum_of_digits false (digits_of_N n) 0
      | None => RNaN
      end
  end.

Definition infinity_text : list ascii := list_ascii_of_string "Infinity".

Definition list_ascii_eqb (a b : list ascii) : bool :=
  String.eqb (string_of_list_ascii a) (string_of_list_ascii b).

Definition unsigned_decimal (neg : bool) (cs : list ascii) : rnum :=
  if list_ascii_eqb cs infinity_text then RInf neg
  else
    let s := scan_decimal cs in
    match remainder s with
    | [] =>
        match int_digits s, frac_digits s with
        | [], [] => RNaN
        | _, _ => scanned_value neg s
        end
    | _ => RNaN
    end.

Definition string_to_number (text : string) : rnum :=
  match trim (list_ascii_of_string text) with
  | [] => RFin 0 0
  | "0" :: "x" :: r | "0" :: "X" :: r => radix_literal 16 r
  | "0" :: "o" :: r | "0" :: "O" :: r => radix_literal 8 r
  | "0" :: "b" :: r | "0" :: "B" :: r => radix_literal 2 r
  | "+" :: r => unsigned_decimal false r
  | "-" :: r => unsigned_decimal true r
  | cs => unsigned_decimal false cs
  end.

(** *** Number::toString *)

Definition zeros (n : nat) : string :=
  string_of_list_ascii (repeat "0" n).

Definition exponent_text (x : Z) : string :=
  ((if (x <? 0)%Z then "-" else "+") ++ string_of_N (Z.to_N (Z.abs x)))%string.

Definition finite_to_string (m e : Z) : string :=
  let s := string_of_N (Z.to_N m) in
  let k := Z.of_nat (String.length s) in
  let n := (k + e)%Z in
  (if ((k <=? n) && (n <=? 21))%Z%bool then
     s ++ zeros (Z.to_nat (n - k))
   else if ((0 <? n) && (n <=? 21))%Z%bool then
     substring 0 (Z.to_nat n) s ++ "." ++ substring (Z.to_nat n) (Z.to_nat (k - n)) s
   else if ((-6 <? n) && (n <=? 0))%Z%bool then
     "0." ++ zeros (Z.to_nat (- n)) ++ s
   else if (k =? 1)%Z then
     s ++ "e" ++ exponent_text (n - 1)
   else
     substring 0 1 s ++ "." ++ substring 1 (Z.to_nat (k - 1)) s
       ++ "e" ++ exponent_text (n - 1))%string.

Definition number_to_string (x : rnum) : string :=
  match x with
  | RNaN => "NaN"
  | RInf false => "Infinity"
  | RInf true => "-Infinity"
  | RFin m e =>
      if (m =? 0)%Z then "0"
      else if (m <? 0)%Z then ("-" ++ finite_to_string (- m) e)%string
      else finite_to_string m e
  end.

Definition rnum_falsy (x : rnum) : bool :=
  match x with
  | RNaN => true
  | RInf _ => false
  | RFin m _ => (m =? 0)%Z
  end.

Definition ref_number : HostNumber := {|
  number := rnum;
  num_nan := RNaN;
  num_of_N := fun n => rnum_of_digits false (digits_of_N n) 0;
  StringToNumber := string_to_number;
  NumberToString := number_to_string;
  num_falsy := rnum_falsy
|}.

#[local] Existing Instance ref_number.

(** *** The realm *)

Local Open Scope string_scope.

(** The built-in objects of this realm: the prototype of each kind of
    value, and the function found under a name on a prototype. *)
Inductive ref_builtin : Type :=
| Prototype (rc : receiver)
| Member (rc : receiver) (name : string).

(** The names of the data properties of the standard prototypes
    (ECMA-262, with its annex B). *)
Definition members (rc : receiver) : list string :=
  match rc with
  | OfObject =>
      ["constructor"; "hasOwnProperty"; "isPrototypeOf"; "propertyIsEnumerable";
       "toLocaleString"; "toString"; "valueOf";
       "__defineGetter__"; "__defineSetter__"; "__lookupGetter__"; "__lookupSetter__"]
  | OfArray =>
      ["constructor"; "at"; "concat"; "copyWithin"; "entries"; "every"; "fill";
       "filter"; "find"; "findIndex"; "findLast"; "findLastIndex"; "flat";
       "flatMap"; "forEach"; "includes"; "indexOf"; "join"; "keys";
       "lastIndexOf"; "map"; "pop"; "push"; "reduce"; "reduceRight"; "reverse";
       "shift"; "slice"; "some"; "sort"; "splice"; "toLocaleString";
       "toReversed"; "toSorted"; "toSpliced"; "toString"; "unshift"; "values";
       "with"]
  | OfString =>
      ["constructor"; "at"; "charAt"; "charCodeAt"; "codePointAt"; "concat";
       "endsWith"; "includes"; "indexOf"; "isWellFormed"; "lastIndexOf";
       "localeCompare"; "match"; "matchAll"; "normalize"; "padEnd"; "padStart";
       "repeat"; "replace"; "replaceAll"; "search"; "slice"; "split";
       "startsWith"; "substring"; "toLocaleLowerCase"; "toLocaleUpperCase";
       "toLowerCase"; "toString"; "toUpperCase"; "toWellFormed"; "trim";
       "trimEnd"; "trimStart"; "valueOf";
       "anchor"; "big"; "blink"; "bold"; "fixed"; "fontcolor"; "fontsize";
       "italics"; "link"; "small"; "strike"; "sub"; "substr"; "sup";
       "trimLeft"; "trimRight"]
  | OfNumber =>
      ["constructor"; "toExponential"; "toFixed"; "toLocaleString";
       "toPrecision"; "toString"; "valueOf"]
  | OfBoolean => ["constructor"; "toString"; "valueOf"]
  end.

Definition has_member (rc : receiver) (k : string) : bool :=
  existsb (String.eqb k) (members rc).

(** What the chain that starts at the prototype of [rc] has under [k]. *)
Definition chain_get (rc : receiver) (k : string) : ref_of ref_builtin :=
  if String.eqb k "__proto__" then RHost (Prototype rc)
  else if has_member rc k then RHost (Member rc k)
  else if has_member OfObject k then RHost (Member OfObject k)
  else RVal VUndef.

Definition chain_put (rc : receiver) (k : string) : inherited_write :=
  if String.eqb k "__proto__" then SetsPrototype else Creates.

(** A property of a prototype: its members, its own prototype under
    [__proto__], what it inherits from [Object.prototype], and the [length]
    zero of [Array.prototype] and [String.prototype].  A property of a
    function: [caller] and [arguments] throw; the rest is left out. *)
Definition builtin_get (b : ref_builtin) (k : string)
  : completion (ref_of ref_builtin) :=
  match b with
  | Prototype rc =>
      if String.eqb k "__proto__" then
        match rc with
        | OfObject => Ok (RVal VNull)
        | _ => Ok (RHost (Prototype OfObject))
        end
      else if has_member rc k then Ok (RHost (Member rc k))
      else if has_member OfObject k then Ok (RHost (Member OfObject k))
      else if String.eqb k "length" then
        match rc with
        | OfArray | OfString => Ok (RVal (VNum (rnum_of_digits false (digits_of_N 0) 0)))
        | _ => Ok (RVal VUndef)
        end
      else Ok (RVal VUndef)
  | Member _ _ =>
      if (String.eqb k "caller" || String.eqb k "arguments")%bool
      then Throw TypeError
      else Ok (RVal VUndef)
  end.

(** A built-in object takes a new property; the [name] and the [length] of
    a function are read-only. *)
Definition builtin_put (b : ref_builtin) (k : string) (x : jsval)
  : completion unit :=
  match b with
  | Prototype _ => Ok tt
  | Member _ _ =>
      if (String.eqb k "name" || String.eqb k "length")%bool
      then Throw TypeError
      else Ok tt
  end.

Definition builtin_is_object (b : ref_builtin) : bool :=
  match b with
  | Prototype _ => true
  | Member _ _ => false
  end.

(** [Array.prototype] is an array, and the prototypes of the primitives
    hold the empty string, zero and [false]. *)
Definition builtin_stringify (b : ref_builtin) : string :=
  match b with
  | Prototype OfObject => "{}"
  | Prototype OfArray => "[]"
  | Prototype OfString => String (ascii_of_N 34) (String (ascii_of_N 34) EmptyString)
  | Prototype OfNumber => "0"
  | Prototype OfBoolean => "false"
  | Member _ _ => "undefined"
  end.

(** The natural number below [2^32] that a number is, if it is one. *)
Definition rnum_length (x : rnum) : option N :=
  match x with
  | RFin m e =>
      if (m <? 0)%Z then None
      else if (m =? 0)%Z then Some 0%N
      else if (0 <=? e)%Z then
        if (e <=? 9)%Z then
          let n := (m * 10 ^ e)%Z in
          if (n <? 4294967296)%Z then Some (Z.to_N n) else None
        else None
      else
        let p := (10 ^ (- e))%Z in
        if ((m mod p =? 0) && (m / p <? 4294967296))%Z%bool
        then Some (Z.to_N (m / p)) else None
  | _ => None
  end.

Definition ref_realm : HostRealm := {|
  builtin := ref_builtin;
  inherited_get := chain_get;
  inherited_put := chain_put;
  host_get := builtin_get;
  host_put := builtin_put;
  host_is_object := builtin_is_object;
  host_entries := fun _ => [];
  host_stringify := builtin_stringify;
  array_length_of := rnum_length
|}.

Local Open Scope char_scope.


(** *** JSON.stringify(v, null, 2) *)

Definition dquote : ascii := ascii_of_N 34.
Definition backslash : ascii := ascii_of_N 92.
Definition newline : string := String (ascii_of_N 10) EmptyString.

Definition hex_digit (n : N) : ascii :=
  if (n <? 10)%N then ascii_of_N (48 + n) else ascii_of_N (87 + n).

(** QuoteJSONString, one code unit *)
Definition quote_char (c : ascii) : list ascii :=
  let n := code c in
  if (n =? 34)%N then [backslash; dquote]
  else if (n =? 92)%N then [backslash; backslash]
  else if (n =? 8)%N then [backslash; "b"]
  else if (n =? 9)%N then [backslash; "t"]
  else if (n =? 10)%N then [backslash; "n"]
  else if (n =? 12)%N then [backslash; "f"]
  else if (n =? 13)%N then [backslash; "r"]
  else if (n <? 32)%N
       then [backslash; "u"; "0"; "0"; hex_digit (n / 16); hex_digit (n mod 16)]
  else [c].

Definition quote (s : string) : string :=
  string_of_list_ascii
    (dquote :: flat_map quote_char (list_ascii_of_string s) ++ [dquote]).

Definition is_finite (x : rnum) : bool :=
  match x with
  | RFin _ _ => true
  | _ => false
  end.

Local Open Scope string_scope.

(** The text of [v] at indentation [indent].  A hole of an array prints as
    [null]; a property whose value is [undefined] is left out. *)
Fixpoint print (indent : string) (v : jsval) : string :=
  let inner := indent ++ "  " in
  match v with
  | VUndef => "null"
  | VNull => "null"
  | VBool true => "true"
  | VBool false => "false"
  | VNum x => if is_finite x then number_to_string x else "null"
  | VStr s => quote s
  | VArr [] => "[]"
  | VArr elems =>
      "[" ++ newline ++ inner
        ++ join ("," ++ newline ++ inner)
             ((fix items (l : list jsval) : list string :=
                 match l with
                 | [] => []
                 | x :: rest => print inner x :: items rest
                 end) elems)
        ++ newline ++ indent ++ "]"
  | VObj props =>
      match
        (fix members (l : list (string * jsval)) : list string :=
           match l with
           | [] => []
           | (_, VUndef) :: rest => members rest
           | (k, x) :: rest => (quote k ++ ": " ++ print inner x) :: members rest
           end) props
      with
      | [] => "{}"
      | ms =>
          "{" ++ newline ++ inner
            ++ join ("," ++ newline ++ inner) ms
            ++ newline ++ indent ++ "}"
      end
  end.

Definition stringify (v : jsval) : string := print "" v.

Local Open Scope char_scope.

(** *** JSON.parse *)

Definition is_json_space (c : ascii) : bool :=
  let n := code c in
  ((n =? 32) || (n =? 9) || (n =? 10) || (n =? 13))%N.

Fixpoint skip_ws (cs : list ascii) : list ascii :=
  match cs with
  | c :: rest => if is_json_space c then skip_ws rest else cs
  | [] => []
  end.

(** A number: an optional minus sign; the integer part, a single zero or
    digits that do not start with zero; an optional fraction, a dot and at
    least one digit; an optional exponent. *)
Definition read_number (cs : list ascii) : option (rnum * list ascii) :=
  let '(neg, body) :=
    match cs with
    | "-" :: r => (true, r)
    | _ => (false, cs)
    end in
  let s := scan_decimal body in
  let int_ok :=
    match int_digits s with
    | [] => false
    | ["0"] => true
    | "0" :: _ => false
    | _ => true
    end in
  let frac_ok :=
    match has_dot s, frac_digits s with
    | true, [] => false
    | _, _ => true
    end in
  if (int_ok && frac_ok)%bool then Some (scanned_value neg s, remainder s) else None.

Definition hex4 (a b c d : ascii) : option N :=
  radix_value 16 0 [a; b; c; d].

(** The characters of a string, after its opening quote.  A code unit above
    255 is beyond the strings of this model. *)
Fixpoint read_string (fuel : nat) (cs : list ascii) (acc : list ascii)
  : option (string * list ascii) :=
  match fuel with
  | O => None
  | S fuel' =>
      match cs with
      | [] => None
      | c :: rest =>
          if (code c =? 34)%N then Some (string_of_list_ascii (rev acc), rest)
          else if (code c =? 92)%N then
            match rest with
            | e :: rest' =>
                if (code e =? 34)%N then read_string fuel' rest' (dquote :: acc)
                else if (code e =? 92)%N then read_string fuel' rest' (backslash :: acc)
                else if Ascii.eqb e "/" then read_string fuel' rest' ("/" :: acc)
                else if Ascii.eqb e "b" then read_string fuel' rest' (ascii_of_N 8 :: acc)
                else if Ascii.eqb e "f" then read_string fuel' rest' (ascii_of_N 12 :: acc)
                else if Ascii.eqb e "n" then read_string fuel' rest' (ascii_of_N 10 :: acc)
                else if Ascii.eqb e "r" then read_string fuel' rest' (ascii_of_N 13 :: acc)
                else if Ascii.eqb e "t" then read_string fuel' rest' (ascii_of_N 9 :: acc)
                else if Ascii.eqb e "u" then
                  match rest' with
                  | h1 :: h2 :: h3 :: h4 :: rest'' =>
                      match hex4 h1 h2 h3 h4 with
                      | Some n =>
                          if (n <? 256)%N
                          then read_string fuel' rest'' (ascii_of_N n :: acc)
                          else None
                      | None => None
                      end
                  | _ => None
                  end
                else None
            | [] => None
            end
          else if (code c <? 32)%N then None
          else read_string fuel' rest (c :: acc)
      end
  end.

Definition starts_with (word : string) (cs : list ascii) : option (list ascii) :=
  let w := list_ascii_of_string word in
  if list_ascii_eqb (firstn (length w) cs) w then Some (skipn (length w) cs) else None.

(** A value, the elements of an array after the first, and the members of
    an object: a later member of the same name replaces the earlier one. *)
Fixpoint read_value (fuel : nat) (cs : list ascii) : option (jsval * list ascii) :=
  match fuel with
  | O => None
  | S fuel' =>
      match skip_ws cs with
      | [] => None
      | c :: rest =>
          if (code c =? 34)%N then
            match read_string (length rest) rest [] with
            | Some (s, r) => Some (VStr s, r)
            | None => None
            end
          else if Ascii.eqb c "[" then
            match skip_ws rest with
            | "]" :: r => Some (VArr [], r)
            | _ =>
                match read_value fuel' rest with
                | Some (x, r) => read_elements fuel' r [x]
                | None => None
                end
            end
          else if Ascii.eqb c "{" then
            match skip_ws rest with
            | "}" :: r => Some (VObj [], r)
            | _ => read_members fuel' rest []
            end
          else if Ascii.eqb c "n" then
            match starts_with "ull" rest with
            | Some r => Some (VNull, r)
            | None => None
            end
          else if Ascii.eqb c "t" then
            match starts_with "rue" rest with
            | Some r => Some (VBool true, r)
            | None => None
            end
          else if Ascii.eqb c "f" then
            match starts_with "alse" rest with
            | Some r => Some (VBool false, r)
            | None => None
            end
          else
            match read_number (c :: rest) with
            | Some (x, r) => Some (VNum x, r)
            | None => None
            end
      end
  end

with read_elements (fuel : nat) (cs : list ascii) (acc : list jsval)
  : option (jsval * list ascii) :=
  match fuel with
  | O => None
  | S fuel' =>
      match skip_ws cs with
      | "]" :: r => Some (VArr (rev acc), r)
      | "," :: r =>
          match read_value fuel' r with
          | Some (x, r') => read_elements fuel' r' (x :: acc)
          | None => None
          end
      | _ => None
      end
  end

with read_members (fuel : nat) (cs : list ascii) (acc : list (string * jsval))
  : option (jsval * list ascii) :=
  match fuel with
  | O => None
  | S fuel' =>
      match skip_ws cs with
      | c :: rest =>
          if (code c =? 34)%N then
            match read_string (length rest) rest [] with
            | Some (k, r) =>
                match skip_ws r with
                | ":" :: r' =>
                    match read_value fuel' r' with
                    | Some (x, r'') =>
                        let acc' := obj_set k x acc in
                        match skip_ws r'' with
                        | "}" :: r3 => Some (VObj acc', r3)
                        | "," :: r3 => read_members fuel' r3 acc'
                        | _ => None
                        end
                    | None => None
                    end
                | _ => None
                end
            | None => None
            end
          else None
      | [] => None
      end
  end.

Definition parse (text : string) : option jsval :=
  let cs := list_ascii_of_string text in
  match read_value (2 * length cs + 2) cs with
  | Some (v, r) =>
      match skip_ws r with
      | [] => Some v
      | _ => None
      end
  | None => None
  end.

Definition ref_json : HostJSON := {|
  JSON_parse := parse;
  JSON_stringify := stringify
|}.

End RefHost.

(** ** Sample documents and rows, on the reference host *)

Module Samples.

#[local] Existing Instance RefHost.ref_number.
#[local] Existing Instance RefHost.ref_realm.
#[local] Existing Instance RefHost.ref_json.

(** The number [n] and the text of a document. *)
Definition int (n : N) : jsval := VNum (num_of_N n).
Definition text_of_doc (d : jsval) : string := JSON_stringify d.

(** [{"a": 1}] *)
Definition doc_a : jsval := VObj [("a", int 1)].
(** [{"a": 1, "b": 2}] *)
Definition doc_ab : jsval := VObj [("a", int 1); ("b", int 2)].
(** [{"a": [10, 20]}] *)
Definition doc_arr : jsval := VObj [("a", VArr [int 10; int 20])].
(** [[10, 20]] *)
Definition doc_list : jsval := VArr [int 10; int 20].
(** [{"customer": {"name": "Al", "age": 30}}] *)
Definition doc_customer : jsval :=
  VObj [("customer", VObj [("name", VStr "Al"); ("age", int 30)])].
(** [{"customer": {"name": "Al", "age": 30, "vip": true}}] *)
Definition doc_vip : jsval :=
  VObj [("customer",
         VObj [("name", VStr "Al"); ("age", int 30); ("vip", VBool true)])].

(** The single unkeyed row of a number node holding 5. *)
Definition row_five : NodeRow := {| key := None; value := int 5; type := "number" |}.
(** The single unkeyed row of a string node holding [hello]. *)
Definition row_hello : NodeRow :=
  {| key := None; value := VStr "hello"; type := "string" |}.
(** The keyed row [x: 1]. *)
Definition row_x : NodeRow := {| key := Some "x"; value := int 1; type := "number" |}.
(** The keyed row [age: 31]. *)
Definition row_age : NodeRow := {| key := Some "age"; value := int 31; type := "number" |}.
(** The rows [b: hello] and [1: 1.5]. *)
Definition rows_scalar : list NodeRow :=
  [ {| key := Some "b"; value := VStr "hello"; type := "string" |};
    {| key := Some "1"; value := VNum (StringToNumber "1.5"); type := "number" |} ].

(** The text [{not json]. *)
Definition not_json : string := "{not json".

(** The selected node [customer] with the rows [name: Al] and [age: 30]. *)
Definition node_customer : NodeData :=
  {| text := [ {| key := Some "name"; value := VStr "Al"; type := "string" |};
               {| key := Some "age"; value := int 30; type := "number" |} ];
     path := Some [SKey "customer"] |}.

(** The same node with the row [vip: true] as well. *)
Definition node_vip : NodeData :=
  {| text := text node_customer
             ++ [ {| key := Some "vip"; value := VBool true; type := "boolean" |} ];
     path := Some [SKey "customer"] |}.

(** The root node of [{"a": 1, "b": 2}], with one row for each key. *)
Definition node_root_ab : NodeData :=
  {| text := [ {| key := Some "a"; value := int 1; type := "number" |};
               {| key := Some "b"; value := int 2; type := "number" |} ];
     path := Some [] |}.

(** A selected number node at the root, with its single unkeyed row. *)
Definition node_root_scalar : NodeData :=
  {| text := [row_five]; path := Some [] |}.

(** The stores holding a document, before an edit. *)
Definition store_of (d : jsval) : Store :=
  {| json := Some (text_of_doc d);
     contents := Some (text_of_doc d);
     graph := Some (text_of_doc d);
     toasts := [];
     isEditing := true |}.

End Samples.

(** ** More samples *)

Module MoreSamples.

Import Samples.
#[local] Existing Instance RefHost.ref_number.
#[local] Existing Instance RefHost.ref_realm.
#[local] Existing Instance RefHost.ref_json.

(** The row [name: Al] of the customer node. *)
Definition row_name : NodeRow :=
  {| key := Some "name"; value := VStr "Al"; type := "string" |}.

(** The single unkeyed row of a number node holding 1. *)
Definition row_one : NodeRow := {| key := None; value := int 1; type := "number" |}.

(** The node at [a] in [{"a": 1}], a number. *)
Definition node_a : NodeData := {| text := [row_one]; path := Some [SKey "a"] |}.

(** The dialog over the stores holding a document, with an empty edit box. *)
Definition dialog_of (d : jsval) : Dialog :=
  {| stores := store_of d; editedContent := "" |}.

(** The properties of the customer object. *)
Definition customer_props : list (string * jsval) :=
  [("name", VStr "Al"); ("age", int 30)].

(** [{"": 7}] and [{"nick": 7}] *)
Definition doc_empty_key : jsval := VObj [("", int 7)].
Definition doc_nick : jsval := VObj [("nick", int 7)].

End MoreSamples.

(** ** Locations of a document

    The vocabulary of the statements: the value a path points to in a
    document, and the row of a row set that decides a key. *)

Section Locations.
Context {HN : HostNumber} {HR : HostRealm} {HJ : HostJSON}.

Definition defined (r : option jsval) : option jsval :=
  match r with
  | Some VUndef => None
  | _ => r
  end.

(** The child of a container at a segment: the property of an object, the
    element of an array. *)
Definition child (v : jsval) (s : seg) : option jsval :=
  match v with
  | VObj props => defined (obj_get (property_key s) props)
  | VArr elems =>
      match array_index (property_key s) with
      | Some n => defined (nth_error elems (N.to_nat n))
      | None => None
      end
  | _ => None
  end.

(** [locate d p] is the value the path [p] points to in [d], when it exists. *)
Fixpoint locate (d : jsval) (p : list seg) : option jsval :=
  match p with
  | [] => Some d
  | s :: rest =>
      match child d s with
      | Some c => locate c rest
      | None => None
      end
  end.

Definition is_container (v : jsval) : bool :=
  match v with
  | VArr _ | VObj _ => true
  | _ => false
  end.


(** The row carries the key [k], and the key is not empty. *)
Definition keyed_as (k : string) (r : NodeRow) : bool :=
  match key r with
  | Some s => (String.eqb s k && negb (String.eqb s ""))%bool
  | None => false
  end.

(** The last row of [rows] that carries the key [k]. *)
Fixpoint last_row (k : string) (rows : list NodeRow) : option NodeRow :=
  match rows with
  | [] => None
  | r :: rest =>
      match last_row k rest with
      | Some r' => Some r'
      | None => if keyed_as k r then Some r else None
      end
  end.

(** The value patching puts in the place of [existing]. *)
Definition new_value (newValue : list NodeRow) (existing : jsval) : jsval :=
  match single_unkeyed newValue with
  | Some r => parseValueByType (value r) (type r)
  | None =>
      VObj (merge_rows (if truthy_object existing then spread existing else [])
                       newValue)
  end.

(** The write of [updateJsonWithNodeValue] along a path that is not empty. *)
Definition write_path (d : jsval) (p : list seg)
  (write : ref -> string -> completion ref) : completion ref :=
  match p with
  | [] => Ok (RVal d)
  | s :: rest => navigate_and_write d s rest write
  end.


(** [!path || path.length === 0] *)
Definition root_path (path : option (list seg)) : bool :=
  match path with
  | None | Some [] => true
  | Some (_ :: _) => false
  end.



(** The key is not that of the inherited setter: on every kind of value an
    assignment to it makes an own property. *)
Definition creates (k : string) : Prop :=
  forall rc, inherited_put rc k = Creates.

(** An assignment to [k] on an object with the own properties [props]
    stores a value under [k]: the key is an own property already, or it is
    not that of the inherited setter. *)
Definition takes_key (props : list (string * jsval)) (k : string) : Prop :=
  obj_get k props <> None \/ creates k.


(** The key of a keyed row. *)
Definition key_string (r : NodeRow) : string :=
  match key r with
  | Some s => s
  | None => ""
  end.

(** The pair of a row's key and value. *)
Definition key_value (r : NodeRow) : option string * jsval := (key r, value r).

(** The pairs of key and value of keyed rows. *)
Definition pairs_of (rows : list NodeRow) : list (string * jsval) :=
  map (fun r => (key_string r, value r)) rows.

(** The JSON text of [null], of a boolean and of a number, which is the
    text a template literal makes of them. *)
Definition literal_text (v : jsval) : option string :=
  match v with
  | VNull => Some "null"
  | VBool true => Some "true"
  | VBool false => Some "false"
  | VNum n => Some (NumberToString n)
  | _ => None
  end.

(** Every row has a scalar type tag. *)
Definition scalar_typed (rows : list NodeRow) : Prop :=
  Forall (fun r => type r <> "array" /\ type r <> "object") rows.

(** Every row has a key that is not empty, and no key occurs twice. *)
Definition well_keyed (rows : list NodeRow) : Prop :=
  Forall (fun r => key_truthy (key r) = true) rows /\ NoDup (map key rows).



End Locations.

(** ** More vocabulary *)

Section MoreVocabulary.
Context {HN : HostNumber} {HR : HostRealm} {HJ : HostJSON}.

(** The type tag is neither ["array"] nor ["object"]. *)
Definition scalar_tag (t : string) : bool :=
  (negb (String.eqb t "array") && negb (String.eqb t "object"))%bool.


(** The last row of [rows] that carries the key [k] and passes the test. *)
Fixpoint last_row_where (f : NodeRow -> bool) (k : string) (rows : list NodeRow)
  : option NodeRow :=
  match rows with
  | [] => None
  | r :: rest =>
      match last_row_where f k rest with
      | Some r' => Some r'
      | None => if (keyed_as k r && f r)%bool then Some r else None
      end
  end.

(** The rows that pass a test, assigned one after another. *)
Definition fill (f : NodeRow -> bool) (c : NodeRow -> jsval)
  (rows : list NodeRow) (obj : made) : made :=
  fold_left
    (fun o row => if f row then assign_keyed o (key row) (c row) else o)
    rows obj.

(** [if (row.key) obj[row.key] = v] where the key becomes an own property. *)
Definition set_keyed (obj : list (string * jsval)) (k : option string)
  (v : jsval) : list (string * jsval) :=
  match k with
  | Some s => if key_truthy k then obj_set s v obj else obj
  | None => obj
  end.

(** The rows [parseEditedContent] makes of the properties of an object. *)
Definition rows_of_entries (originalRows : list NodeRow)
  (entries : list (string * jsval)) : list NodeRow :=
  map (fun kv =>
         {| key := Some (fst kv);
            value := snd kv;
            type := inferType (find_row (fst kv) originalRows) (snd kv) |})
      entries.

(** The strings and the rows of an object are in step: no property is
    [undefined], and a property that is a string is not ["null"] and has no
    original row of declared type ["boolean"] or ["number"]. *)
Definition editable_as_is (originalRows : list NodeRow)
  (props : list (string * jsval)) : Prop :=
  forall k v, In (k, v) props ->
    v <> VUndef
    /\ (forall s, v = VStr s ->
          s <> "null"
          /\ declared_type (find_row k originalRows) <> "boolean"
          /\ declared_type (find_row k originalRows) <> "number").

(** No key of the path holds a double quote. *)
Definition quote_free_key (k : string) : Prop :=
  ~ In (ascii_of_N 34) (list_ascii_of_string k).

Definition quote_free (p : list seg) : Prop :=
  forall k, In (SKey k) p -> quote_free_key k.

(** The text of a segment, and of a path as a row of brackets. *)
Definition quote_mark : ascii := ascii_of_N 34.

Definition seg_text (s : seg) : string :=
  match s with
  | SIdx n => string_of_N n
  | SKey k =>
      String.append (String quote_mark EmptyString)
                    (String.append k (String quote_mark EmptyString))
  end.

Fixpoint bracketed (p : list seg) : string :=
  match p with
  | [] => ""
  | s :: rest =>
      String.append "[" (String.append (seg_text s) (String.append "]" (bracketed rest)))
  end.

End MoreVocabulary.

(** ** Properties *)

Section Properties.
Context {HN : HostNumber} {HR : HostRealm} {HJ : HostJSON}.

(** *** Objects and arrays *)

Lemma obj_get_replace_same k v props :
  obj_get k props <> None -> obj_get k (obj_replace k v props) = Some v.
Proof.
  induction props as [|[k' v'] rest IH]; simpl; intros H.
  - congruence.
  - destruct (String.eqb k k') eqn:E; simpl.
    + now rewrite String.eqb_refl.
    + rewrite E. auto.
Qed.

Lemma obj_get_replace_other k k' v props :
  k' <> k -> obj_get k' (obj_replace k v props) = obj_get k' props.
Proof.
  intros Hne.
  induction props as [|[k0 v0] rest IH]; simpl; auto.
  destruct (String.eqb k k0) eqn:E; simpl.
  - apply String.eqb_eq in E. subst k0.
    apply String.eqb_neq in Hne. now rewrite Hne.
  - now rewrite IH.
Qed.

Lemma obj_get_insert_same n k v props :
  obj_get k props = None -> obj_get k (obj_insert_index n k v props) = Some v.
Proof.
  induction props as [|[k' v'] rest IH]; simpl; intros H.
  - now rewrite String.eqb_refl.
  - destruct (String.eqb k k') eqn:E; [discriminate|].
    destruct (array_index k') as [m|]; [destruct (m <? n)%N|]; simpl;
      rewrite ?E, ?String.eqb_refl; auto.
Qed.

Lemma obj_get_insert_other n k k' v props :
  k' <> k -> obj_get k' (obj_insert_index n k v props) = obj_get k' props.
Proof.
  intros Hne. apply String.eqb_neq in Hne.
  induction props as [|[k0 v0] rest IH]; simpl.
  - now rewrite Hne.
  - destruct (array_index k0) as [m|]; [destruct (m <? n)%N|]; simpl;
      rewrite ?Hne, ?IH; auto.
Qed.

Lemma obj_get_app k props more :
  obj_get k (props ++ more) =
  match obj_get k props with
  | Some x => Some x
  | None => obj_get k more
  end.
Proof.
  induction props as [|[k' v'] rest IH]; simpl; auto.
  destruct (String.eqb k k'); auto.
Qed.

Lemma obj_get_set_same k v props : obj_get k (obj_set k v props) = Some v.
Proof.
  unfold obj_set. destruct (obj_get k props) eqn:E.
  - apply obj_get_replace_same. congruence.
  - destruct (array_index k).
    + now apply obj_get_insert_same.
    + rewrite obj_get_app, E. simpl. now rewrite String.eqb_refl.
Qed.

Lemma obj_get_set_other k k' v props :
  k' <> k -> obj_get k' (obj_set k v props) = obj_get k' props.
Proof.
  intros Hne. unfold obj_set. destruct (obj_get k props) eqn:E.
  - now apply obj_get_replace_other.
  - destruct (array_index k).
    + now apply obj_get_insert_other.
    + rewrite obj_get_app. simpl.
      apply String.eqb_neq in Hne. rewrite Hne.
      now destruct (obj_get k' props).
Qed.


Lemma nth_error_arr_set_same i x elems : nth_error (arr_set i x elems) i = Some x.
Proof.
  revert elems. induction i as [|i IH]; intros [|y rest]; simpl; auto.
Qed.


Lemma nth_error_arr_set_other n x : forall m elems v,
  m <> n -> nth_error elems m = Some v ->
  nth_error (arr_set n x elems) m = Some v.
Proof.
  induction n as [|n IH]; intros [|m] [|y rest] v H Hm; simpl in *;
    try discriminate; try congruence; auto.
Qed.

(** Inserting a new key permutes the entries with the new one. *)
Lemma obj_insert_index_perm n k v props :
  Permutation ((k, v) :: props) (obj_insert_index n k v props).
Proof.
  induction props as [|[k' v'] rest IH]; simpl; auto.
  destruct (array_index k') as [m|]; [destruct (m <? n)%N|]; auto.
  eapply perm_trans; [apply perm_swap|]. now apply perm_skip.
Qed.

Lemma obj_set_new_perm k v props :
  obj_get k props = None -> Permutation ((k, v) :: props) (obj_set k v props).
Proof.
  intros H. unfold obj_set. rewrite H.
  destruct (array_index k).
  - apply obj_insert_index_perm.
  - apply Permutation_cons_append.
Qed.

Lemma obj_get_none_iff k props :
  obj_get k props = None <-> ~ In k (map fst props).
Proof.
  induction props as [|[k' v'] rest IH]; simpl.
  - tauto.
  - destruct (String.eqb k k') eqn:E.
    + apply String.eqb_eq in E. subst. split; [discriminate|tauto].
    + apply String.eqb_neq in E. rewrite IH. split; intros H.
      * intros [H1|H1]; [congruence|tauto].
      * tauto.
Qed.


(** *** Assignments to an object the program has made *)

Lemma creates_found_above proto k : creates k -> found_above proto k = Creates.
Proof.
  intros H. destruct proto as [| |p]; simpl; auto.
  destruct (own_get p k); auto.
Qed.

Lemma assign_takes o k x :
  takes_key (props_of o) k ->
  assign o k x = {| props_of := obj_set k x (props_of o); proto_of := proto_of o |}.
Proof.
  intros H. unfold assign.
  destruct (obj_get k (props_of o)) eqn:E; [reflexivity|].
  destruct H as [H|H]; [congruence|].
  now rewrite creates_found_above.
Qed.

Lemma obj_get_assign_same o k x :
  takes_key (props_of o) k -> obj_get k (props_of (assign o k x)) = Some x.
Proof. intros H. rewrite assign_takes by auto. apply obj_get_set_same. Qed.

Lemma obj_get_assign_other o k k' x :
  k' <> k -> obj_get k' (props_of (assign o k x)) = obj_get k' (props_of o).
Proof.
  intros Hne. unfold assign.
  destruct (obj_get k (props_of o)); [now apply obj_get_set_other|].
  destruct (found_above (proto_of o) k); simpl; auto.
  now apply obj_get_set_other.
Qed.

Lemma obj_get_assign_kept o k k' x :
  obj_get k' (props_of o) <> None -> obj_get k' (props_of (assign o k x)) <> None.
Proof.
  intros H. destruct (string_dec k' k) as [->|Hne].
  - rewrite obj_get_assign_same; [discriminate|now left].
  - now rewrite obj_get_assign_other.
Qed.

Lemma obj_get_assign_keyed_skip o r x k :
  keyed_as k r = false ->
  obj_get k (props_of (assign_keyed o (key r) x)) = obj_get k (props_of o).
Proof.
  unfold keyed_as, assign_keyed, key_truthy.
  destruct (key r) as [s|]; auto.
  destruct (String.eqb s "") eqn:E0; simpl; auto.
  rewrite andb_true_r. intros E. apply String.eqb_neq in E.
  apply obj_get_assign_other. congruence.
Qed.

Lemma obj_get_assign_keyed_hit o r x k :
  keyed_as k r = true -> takes_key (props_of o) k ->
  obj_get k (props_of (assign_keyed o (key r) x)) = Some x.
Proof.
  unfold keyed_as, assign_keyed, key_truthy.
  destruct (key r) as [s|]; [|discriminate].
  intros E. apply andb_prop in E. destruct E as [E1 E2].
  rewrite E2. apply String.eqb_eq in E1. subst s.
  apply obj_get_assign_same.
Qed.

Lemma obj_get_assign_keyed_kept o kk x k :
  obj_get k (props_of o) <> None ->
  obj_get k (props_of (assign_keyed o kk x)) <> None.
Proof.
  unfold assign_keyed. destruct kk as [s|]; auto.
  destruct (key_truthy (Some s)); auto.
  apply obj_get_assign_kept.
Qed.

(** No assignment of a fill removes a property. *)
Lemma fill_keeps f c k rows : forall o,
  obj_get k (props_of o) <> None ->
  obj_get k (props_of (fill f c rows o)) <> None.
Proof.
  unfold fill.
  induction rows as [|r rest IH]; intros o H; simpl; auto.
  apply IH. destruct (f r); auto. now apply obj_get_assign_keyed_kept.
Qed.

(** After a fill a key has the value of the last row that carries it and
    passes the test, when the object takes the key, and the value it had
    when there is no such row. *)
Lemma fill_lookup f c k rows : forall o,
  takes_key (props_of o) k \/ last_row_where f k rows = None ->
  obj_get k (props_of (fill f c rows o))
  = match last_row_where f k rows with
    | Some r => Some (c r)
    | None => obj_get k (props_of o)
    end.
Proof.
  unfold fill.
  induction rows as [|r rest IH]; intros o H; simpl; auto.
  rewrite IH.
  - destruct (last_row_where f k rest) as [r'|] eqn:El; auto.
    destruct (f r) eqn:Ef.
    + rewrite andb_true_r. destruct (keyed_as k r) eqn:Ek.
      * apply obj_get_assign_keyed_hit; auto.
        destruct H as [H|H]; auto.
        simpl in H. rewrite El, Ek, Ef in H. discriminate.
      * now apply obj_get_assign_keyed_skip.
    + now rewrite andb_false_r.
  - destruct H as [[H|H]|H].
    + left. left. destruct (f r); auto. now apply obj_get_assign_keyed_kept.
    + left. now right.
    + right. simpl in H. destruct (last_row_where f k rest); auto.
Qed.

Lemma last_row_where_all k rows :
  last_row_where (fun _ => true) k rows = last_row k rows.
Proof.
  induction rows as [|r rest IH]; simpl; auto.
  now rewrite IH, andb_true_r.
Qed.

Lemma merge_rows_fill props rows :
  merge_rows props rows
  = props_of (fill (fun _ => true)
                (fun r => parseValueByType (value r) (type r)) rows (literal props)).
Proof. reflexivity. Qed.

Lemma obj_get_merge_rows k rows props :
  takes_key props k \/ last_row k rows = None ->
  obj_get k (merge_rows props rows) =
  match last_row k rows with
  | Some r => Some (parseValueByType (value r) (type r))
  | None => obj_get k props
  end.
Proof.
  intros H. rewrite merge_rows_fill, fill_lookup.
  - now rewrite last_row_where_all.
  - now rewrite last_row_where_all.
Qed.

Lemma merge_rows_keeps k rows props :
  obj_get k props <> None -> obj_get k (merge_rows props rows) <> None.
Proof. intros H. rewrite merge_rows_fill. now apply fill_keeps. Qed.

(** Where every key that a row carries is taken as an own property, a fill
    is the rows put into the properties one after another. *)
Lemma fill_set_keyed f c rows : forall props,
  (forall r k, In r rows -> key r = Some k -> k <> "" -> creates k) ->
  fill f c rows (literal props)
  = literal (fold_left
               (fun o row => if f row then set_keyed o (key row) (c row) else o)
               rows props).
Proof.
  unfold fill.
  induction rows as [|r rest IH]; intros props H; simpl; auto.
  assert (E : (if f r then assign_keyed (literal props) (key r) (c r)
               else literal props)
              = literal (if f r then set_keyed props (key r) (c r) else props)).
  { destruct (f r); auto.
    unfold assign_keyed, set_keyed, key_truthy.
    destruct (key r) as [s|] eqn:Ek; auto.
    destruct (String.eqb s "") eqn:E0; simpl; auto.
    apply String.eqb_neq in E0.
    rewrite assign_takes; [reflexivity|].
    right. apply (H r s); simpl; auto. }
  rewrite E. apply IH. intros r' k Hin. apply H. now right.
Qed.

Lemma last_row_in k rows r :
  last_row k rows = Some r -> In r rows /\ key r = Some k /\ k <> "".
Proof.
  induction rows as [|r0 rest IH]; simpl; [discriminate|].
  destruct (last_row k rest) as [r'|].
  - intros H. inversion H; subst. destruct IH as (?&?&?); auto.
  - unfold keyed_as. destruct (key r0) as [s|] eqn:E; [|discriminate].
    destruct (String.eqb s k) eqn:E1; simpl; [|discriminate].
    destruct (String.eqb s "") eqn:E2; simpl; [discriminate|].
    intros H. inversion H; subst.
    apply String.eqb_eq in E1. apply String.eqb_neq in E2. subst.
    auto.
Qed.

(** The last row of a key is the row after which no row carries the key. *)
Lemma last_row_split k before r after :
  key r = Some k -> k <> "" ->
  (forall r', In r' after -> key r' <> Some k) ->
  last_row k (before ++ r :: after) = Some r.
Proof.
  intros Hk Hne Hafter.
  assert (Hnone : last_row k after = None).
  { induction after as [|a rest IH]; simpl; auto.
    rewrite IH by (intros; apply Hafter; simpl; auto).
    unfold keyed_as. destruct (key a) as [s|] eqn:E; auto.
    destruct (String.eqb s k) eqn:E1; auto.
    apply String.eqb_eq in E1. subst.
    exfalso. apply (Hafter a); simpl; auto. }
  induction before as [|b rest IH]; simpl.
  - rewrite Hnone. unfold keyed_as. rewrite Hk, String.eqb_refl.
    apply String.eqb_neq in Hne. now rewrite Hne.
  - now rewrite IH.
Qed.

Lemma last_row_none k rows :
  (forall r, In r rows -> key r <> Some k) -> last_row k rows = None.
Proof.
  induction rows as [|a rest IH]; simpl; intros H; auto.
  rewrite IH by auto.
  unfold keyed_as. destruct (key a) as [s|] eqn:E; auto.
  destruct (String.eqb s k) eqn:E1; auto.
  apply String.eqb_eq in E1. subst. exfalso. apply (H a); auto.
Qed.

Lemma last_row_where_none f k rows :
  (forall r, In r rows -> key r = Some k -> f r = false) ->
  last_row_where f k rows = None.
Proof.
  induction rows as [|a rest IH]; simpl; intros H; auto.
  rewrite IH by auto.
  destruct (keyed_as k a) eqn:E; auto. simpl.
  rewrite (H a); auto.
  unfold keyed_as in E. destruct (key a) as [s|]; [|discriminate].
  apply andb_prop in E. destruct E as [E _].
  apply String.eqb_eq in E. now subst.
Qed.

Lemma last_row_where_split f k before r after :
  key r = Some k -> k <> "" -> f r = true ->
  (forall r', In r' after -> key r' <> Some k) ->
  last_row_where f k (before ++ r :: after) = Some r.
Proof.
  intros Hk Hne Ht Hafter.
  assert (Hnone : last_row_where f k after = None).
  { apply last_row_where_none. intros r' Hin Hk'.
    exfalso. now apply (Hafter r'). }
  induction before as [|b rest IH]; simpl.
  - rewrite Hnone, Ht. unfold keyed_as. rewrite Hk, String.eqb_refl.
    apply String.eqb_neq in Hne. now rewrite Hne.
  - now rewrite IH.
Qed.

(** *** Reading and writing along a path *)

Lemma defined_some r c : defined r = Some c -> r = Some c /\ c <> VUndef.
Proof.
  destruct r as [[]|]; simpl; intros H; inversion H; subst; split;
    auto; discriminate.
Qed.

Lemma child_own v s c : child v s = Some c -> own_get v (property_key s) = Some c.
Proof.
  destruct v; simpl; try discriminate.
  - destruct (array_index (property_key s)) as [n|]; [|discriminate].
    intros H. now apply defined_some in H.
  - intros H. now apply defined_some in H.
Qed.

Lemma child_container v s c : child v s = Some c -> is_container v = true.
Proof. destruct v; simpl; auto; discriminate. Qed.

Lemma GetV_own v k c :
  is_container v = true -> own_get v k = Some c -> GetV v k = Ok (RVal c).
Proof.
  intros Hc H. destruct v; try discriminate; unfold GetV; now rewrite H.
Qed.

Lemma child_GetV v s c : child v s = Some c -> GetV v (property_key s) = Ok (RVal c).
Proof.
  intros H. apply GetV_own.
  - eapply child_container; eauto.
  - now apply child_own.
Qed.

Lemma locate_app p : forall d q,
  locate d (p ++ q) =
  match locate d p with
  | Some v => locate v q
  | None => None
  end.
Proof.
  induction p as [|s rest IH]; intros d q; simpl; auto.
  destruct (child d s); auto.
Qed.

Lemma resolve_locate p : forall d v, locate d p = Some v -> resolve d p = RVal v.
Proof.
  induction p as [|s rest IH]; intros d v; cbn [locate resolve].
  - congruence.
  - destruct (child d s) as [c|] eqn:E; [|discriminate].
    rewrite (child_GetV _ _ _ E). apply IH.
Qed.

Lemma resolve_app p : forall d q, resolve d (p ++ q) = resolve (resolve d p) q.
Proof.
  induction p as [|s rest IH]; intros d q; simpl; auto.
  destruct (GetV d (property_key s)); apply IH.
Qed.

(** A write at a place that exists replaces what is there. *)
Lemma PutV_own parent s old x :
  child parent s = Some old ->
  exists parent',
    PutV parent (property_key s) x = Ok (RVal parent')
    /\ own_get parent' (property_key s) = Some x
    /\ is_container parent' = true.
Proof.
  destruct parent; simpl; try discriminate.
  - destruct (array_index (property_key s)) as [n|] eqn:E; [|discriminate].
    intros _. eexists. split; [reflexivity|]. simpl. rewrite E.
    split; [apply nth_error_arr_set_same|reflexivity].
  - intros H. apply defined_some in H. destruct H as [H _]. rewrite H.
    eexists. split; [reflexivity|]. simpl.
    split; [apply obj_get_set_same|reflexivity].
Qed.

Lemma write_target_child rows parent s old :
  child parent s = Some old ->
  write_target rows parent (property_key s)
  = PutV parent (property_key s) (new_value rows old).
Proof.
  intros Hc. unfold write_target, new_value.
  destruct (single_unkeyed rows); auto.
  now rewrite (child_GetV _ _ _ Hc).
Qed.

Lemma put_back_child d s c c' :
  child d s = Some c ->
  exists d', put_back d (property_key s) (RVal c') = RVal d'
             /\ own_get d' (property_key s) = Some c'
             /\ is_container d' = true
             /\ (c' <> VUndef -> child d' s = Some c').
Proof.
  destruct d; simpl; try discriminate.
  - destruct (array_index (property_key s)) as [n|] eqn:E; [|discriminate].
    intros H. apply defined_some in H. destruct H as [H _].
    assert (Hlt : (N.to_nat n <? length elems)%nat = true).
    { apply Nat.ltb_lt. apply nth_error_Some. congruence. }
    rewrite Hlt. eexists. split; [reflexivity|]. simpl. rewrite E.
    rewrite nth_error_arr_set_same.
    split; [reflexivity|]. split; [reflexivity|].
    intros Hu. destruct c'; simpl; congruence.
  - intros H. apply defined_some in H. destruct H as [H _].
    eexists. split; [reflexivity|]. simpl.
    rewrite obj_get_replace_same by congruence.
    split; [reflexivity|]. split; [reflexivity|].
    intros Hu. destruct c'; simpl; congruence.
Qed.

(** The document after a write holds, at the path without its last segment,
    the container that the write at the last segment returned. *)
Lemma write_path_at (write : ref -> string -> completion ref) prefix :
  forall d last parent parent',
    locate d prefix = Some parent ->
    write parent (property_key last) = Ok (RVal parent') ->
    exists d',
      write_path d (prefix ++ [last]) write = Ok (RVal d')
      /\ resolve d' prefix = RVal parent'.
Proof.
  induction prefix as [|b bs IH]; intros d last parent parent' Hloc Hw;
    cbn [locate] in Hloc.
  - inversion Hloc; subst. exists parent'. split; [exact Hw|reflexivity].
  - destruct (child d b) as [c|] eqn:Ec; [|discriminate].
    destruct (IH c last parent parent' Hloc Hw) as (c' & H1 & H2).
    revert H1. rewrite <- app_comm_cons.
    destruct (bs ++ [last]) as [|s' rest'] eqn:Eapp.
    { destruct bs; discriminate. }
    cbn [write_path navigate_and_write]. intros H1.
    rewrite (child_GetV _ _ _ Ec). cbn [bind].
    rewrite H1. cbn [bind].
    destruct (put_back_child d b c c' Ec) as (d' & E1 & E2 & E3 & _).
    rewrite E1. exists d'. split; [reflexivity|].
    cbn [resolve]. now rewrite (GetV_own d' _ c' E3 E2).
Qed.

(** A write at a place that exists succeeds, and the path resolves to the
    new value afterwards. *)
Lemma write_path_existing rows p d old :
  p <> [] ->
  locate d p = Some old ->
  exists d',
    write_path d p (write_target rows) = Ok (RVal d')
    /\ resolve d' p = RVal (new_value rows old).
Proof.
  intros Hne Hloc.
  destruct (exists_last Hne) as (prefix & last & ->).
  rewrite locate_app in Hloc.
  destruct (locate d prefix) as [parent|] eqn:Ep; [|discriminate].
  simpl in Hloc. destruct (child parent last) as [c|] eqn:Ec; [|discriminate].
  inversion Hloc; subst c.
  destruct (PutV_own parent last old (new_value rows old) Ec) as (parent' & P1 & P2 & P3).
  destruct (write_path_at (write_target rows) prefix d last parent parent' Ep)
    as (d' & H1 & H2).
  { now rewrite (write_target_child rows parent last old Ec). }
  exists d'. split; auto.
  rewrite resolve_app, H2. cbn [resolve].
  now rewrite (GetV_own parent' _ _ P3 P2).
Qed.











(** *** The patcher *)

Lemma update_nonempty json d p rows :
  JSON_parse json = Some d -> p <> [] ->
  updateJsonWithNodeValue json (Some p) rows =
  (d' <- write_path d p (write_target rows) ;; Ok (Some (JSON_stringify_ref d'))).
Proof.
  intros Hj Hp. unfold updateJsonWithNodeValue. rewrite Hj.
  destruct p; [congruence|reflexivity].
Qed.

Lemma update_root json d path rows :
  JSON_parse json = Some d ->
  root_path path = true ->
  updateJsonWithNodeValue json path rows =
  match single_unkeyed rows with
  | Some r => Ok (JSON_stringify_any (value r))
  | None =>
      Ok (Some (JSON_stringify
                  (VObj (merge_rows (if truthy_object d then own_entries d else [])
                                    rows))))
  end.
Proof.
  intros Hj Hp. unfold updateJsonWithNodeValue. rewrite Hj.
  destruct path as [[|s rest]|]; try discriminate.
  all: destruct (single_unkeyed rows); auto.
  all: destruct (truthy_object d); reflexivity.
Qed.




(** A keyed row set at the place of an object: the new document holds the
    merged object there. *)
Lemma update_merges_object json d p props rows :
  JSON_parse json = Some d ->
  locate d p = Some (VObj props) ->
  single_unkeyed rows = None ->
  exists d',
    updateJsonWithNodeValue json (Some p) rows = Ok (Some (JSON_stringify d'))
    /\ resolve d' p = VObj (merge_rows props rows).
Proof.
  intros Hj Hloc Hrows.
  destruct p as [|s rest].
  - simpl in Hloc. inversion Hloc; subst d.
    rewrite (update_root json (VObj props) (Some [])), Hrows by auto.
    eexists. split; reflexivity.
  - destruct (write_path_existing rows (s :: rest) d (VObj props))
      as (d' & H1 & H2); [discriminate|auto|].
    exists d'. rewrite (update_nonempty json d) by (auto; discriminate).
    rewrite H1. split; [reflexivity|].
    rewrite H2. unfold new_value. now rewrite Hrows.
Qed.



(** A save either stores the new text in the document, its mirror and the
    graph at once, or leaves the three as they were and shows an error. *)
Lemma handleSave_all_or_nothing nodeData content st :
  (exists out,
      json (handleSave nodeData content st) = out
      /\ contents (handleSave nodeData content st) = out
      /\ graph (handleSave nodeData content st) = out
      /\ isEditing (handleSave nodeData content st) = false
      /\ toasts (handleSave nodeData content st)
         = toasts st ++ [toast_success "Node value updated!"])
  \/ (exists e,
         json (handleSave nodeData content st) = json st
         /\ contents (handleSave nodeData content st) = contents st
         /\ graph (handleSave nodeData content st) = graph st
         /\ isEditing (handleSave nodeData content st) = isEditing st
         /\ toasts (handleSave nodeData content st) = toasts st ++ [toast_error e]).
Proof.
  unfold handleSave.
  destruct (parseEditedContent content (text_of nodeData)) as [rows|e]; simpl.
  - destruct (json st) as [j|]; simpl.
    + destruct (updateJsonWithNodeValue j (path_of nodeData) rows) as [out|e]; simpl.
      * left. exists out. auto.
      * right. exists e. auto.
    + right. exists SyntaxError. auto.
  - right. exists e. auto.
Qed.

(** C3.  An edited text that the host cannot parse makes
    [parseEditedContent] throw [Error("Invalid JSON format")], whatever the
    original rows; the save handler then leaves the stored document, its
    mirror and the graph source as they were. *)
Theorem invalid_text_is_rejected content :
  JSON_parse content = None ->
  (forall rows,
      parseEditedContent content rows = Throw (Error "Invalid JSON format"))
  /\ (forall nodeData st,
         json (handleSave nodeData content st) = json st
         /\ contents (handleSave nodeData content st) = contents st
         /\ graph (handleSave nodeData content st) = graph st
         /\ isEditing (handleSave nodeData content st) = isEditing st).
Proof.
  intros Hc.
  assert (H : forall rows,
             parseEditedContent content rows = Throw (Error "Invalid JSON format")).
  { intros rows. unfold parseEditedContent. now rewrite Hc. }
  split; auto.
  intros nodeData st. unfold handleSave. rewrite H. simpl. auto.
Qed.


(** *** What a patch leaves alone *)

Lemma array_index_canonical k n : array_index k = Some n -> k = string_of_N n.
Proof.
  unfold array_index.
  destruct (NilEmpty.uint_of_string k) as [u|]; [|discriminate].
  destruct (String.eqb (string_of_N (N.of_uint u)) k) eqn:E; simpl; [|discriminate].
  destruct (N.of_uint u <? 4294967295)%N; [|discriminate].
  intros H. inversion H; subst. apply String.eqb_eq in E. now symmetry.
Qed.

Lemma child_arr_set_other elems k n x t c :
  array_index k = Some n -> property_key t <> k ->
  child (VArr elems) t = Some c ->
  child (VArr (arr_set (N.to_nat n) x elems)) t = Some c.
Proof.
  intros Hk Hne. simpl.
  destruct (array_index (property_key t)) as [m|] eqn:Em; [|discriminate].
  intros H. apply defined_some in H. destruct H as [H Hu].
  rewrite (nth_error_arr_set_other _ _ _ _ c); auto.
  - destruct c; simpl; congruence.
  - intros Heq. apply N2Nat.inj in Heq. subst m.
    apply array_index_canonical in Hk, Em. congruence.
Qed.

Lemma child_obj_set_other props k x t c :
  property_key t <> k ->
  child (VObj props) t = Some c -> child (VObj (obj_set k x props)) t = Some c.
Proof. intros Hne. simpl. now rewrite obj_get_set_other. Qed.

Lemma child_obj_replace_other props k x t c :
  property_key t <> k ->
  child (VObj props) t = Some c -> child (VObj (obj_replace k x props)) t = Some c.
Proof. intros Hne. simpl. now rewrite obj_get_replace_other. Qed.

(** A write at a key other than [length] leaves the children under the
    other keys. *)
Lemma PutV_keeps_child (v : jsval) k x r t c :
  PutV v k x = Ok r -> property_key t <> k -> k <> "length" ->
  child v t = Some c ->
  exists v', r = RVal v' /\ child v' t = Some c.
Proof.
  intros H Hne Hl Hc.
  destruct v; try discriminate; simpl in H.
  - destruct (array_index k) as [n|] eqn:E.
    + inversion H; subst. eexists. split; [reflexivity|].
      now apply (child_arr_set_other elems k).
    + apply String.eqb_neq in Hl. rewrite Hl in H.
      inversion H; subst. eauto.
  - destruct (obj_get k props).
    + inversion H; subst. eexists. split; [reflexivity|].
      now apply child_obj_set_other.
    + destruct (inherited_put OfObject k); inversion H; subst.
      * eexists. split; [reflexivity|]. now apply child_obj_set_other.
      * eauto.
Qed.

Lemma write_target_keeps_child rows (v : jsval) k r t c :
  write_target rows v k = Ok r -> property_key t <> k -> k <> "length" ->
  child v t = Some c ->
  exists v', r = RVal v' /\ child v' t = Some c.
Proof.
  unfold write_target. destruct (single_unkeyed rows).
  - apply PutV_keeps_child.
  - destruct (GetV v k); cbn [bind]; [|discriminate]. apply PutV_keeps_child.
Qed.

Lemma put_back_keeps_child (v : jsval) k x t c :
  property_key t <> k -> child v t = Some c ->
  exists v', put_back v k x = RVal v' /\ child v' t = Some c.
Proof.
  intros Hne Hc.
  destruct v; try discriminate; destruct x as [y|hb]; cbn [put_back]; eauto.
  - destruct (array_index k) as [n|] eqn:E; eauto.
    destruct (N.to_nat n <? length elems)%nat; eauto.
    eexists. split; [reflexivity|]. now apply (child_arr_set_other elems k).
  - eexists. split; [reflexivity|]. now apply child_obj_replace_other.
Qed.

Lemma navigate_keeps_child rows rest : forall (d : jsval) s r t c,
  navigate_and_write d s rest (write_target rows) = Ok r ->
  property_key t <> property_key s -> property_key s <> "length" ->
  child d t = Some c ->
  exists d', r = RVal d' /\ child d' t = Some c.
Proof.
  destruct rest as [|s' rest']; intros d s r t c H Hne Hl Hc;
    cbn [navigate_and_write] in H.
  - now apply (write_target_keeps_child rows d (property_key s)).
  - destruct (GetV d (property_key s)) as [x|]; cbn [bind] in H; [|discriminate].
    destruct (navigate_and_write x s' rest' (write_target rows)) as [x'|];
      cbn [bind] in H; [|discriminate].
    inversion H; subst. now apply put_back_keeps_child.
Qed.

Lemma PutV_stays (d : jsval) k x r :
  PutV d k x = Ok r -> exists d', r = RVal d'.
Proof.
  intros H. destruct d; simpl in H;
    repeat match type of H with
           | context [match ?t with _ => _ end] => destruct t
           end;
    inversion H; eauto.
Qed.

Lemma put_back_stays (d : jsval) k x : exists d', put_back d k x = RVal d'.
Proof.
  destruct d; destruct x as [y|hb]; cbn [put_back]; eauto.
  destruct (array_index k); eauto.
  destruct (N.to_nat n <? length elems)%nat; eauto.
Qed.

Lemma navigate_stays rows rest : forall (d : jsval) s r,
  navigate_and_write d s rest (write_target rows) = Ok r ->
  exists d', r = RVal d'.
Proof.
  destruct rest as [|s' rest']; intros d s r H; cbn [navigate_and_write] in H.
  - unfold write_target in H.
    destruct (single_unkeyed rows); [now apply PutV_stays in H|].
    destruct (GetV d (property_key s)); cbn [bind] in H; [|discriminate].
    now apply PutV_stays in H.
  - destruct (GetV d (property_key s)) as [x|]; cbn [bind] in H; [|discriminate].
    destruct (navigate_and_write x s' rest' (write_target rows)) as [x'|];
      cbn [bind] in H; [|discriminate].
    inversion H; subst. apply put_back_stays.
Qed.

(** A patch changes nothing at a place that exists and lies off the patched
    path: what the other path pointed to before, it points to afterwards. *)
Lemma write_path_frame rows common : forall d d' s t rest1 rest2 v,
  write_path d (common ++ s :: rest1) (write_target rows) = Ok (RVal d') ->
  property_key t <> property_key s -> property_key s <> "length" ->
  locate d (common ++ t :: rest2) = Some v ->
  locate d' (common ++ t :: rest2) = Some v.
Proof.
  induction common as [|c cs IH]; intros d d' s t rest1 rest2 v H Hne Hl Hloc.
  - cbn [app write_path] in H. cbn [app locate] in *.
    destruct (child d t) as [x|] eqn:Ex; [|discriminate].
    destruct (navigate_keeps_child rows rest1 d s _ t x H Hne Hl Ex) as (d0 & E & Hc).
    inversion E; subst d0. now rewrite Hc.
  - rewrite <- app_comm_cons in *. cbn [locate] in *. cbn [write_path] in H.
    destruct (child d c) as [x|] eqn:Ex; [|discriminate].
    pose proof (fun x' H => IH x x' s t rest1 rest2 v H Hne Hl Hloc) as IH'.
    destruct (cs ++ s :: rest1) as [|s' rest'] eqn:Eapp.
    { destruct cs; discriminate. }
    cbn [navigate_and_write] in H.
    rewrite (child_GetV _ _ _ Ex) in H. cbn [bind] in H.
    destruct (navigate_and_write x s' rest' (write_target rows)) as [r|] eqn:Ew;
      cbn [bind] in H; [|discriminate].
    destruct (navigate_stays rows rest' x s' r Ew) as [x' ->].
    specialize (IH' x' Ew).
    destruct (put_back_child d c x x' Ex) as (d0 & E1 & _ & _ & E4).
    rewrite E1 in H. inversion H; subst d0.
    rewrite E4; auto.
    intros ->. destruct cs; simpl in IH'; discriminate.
Qed.

(** *** The content parser *)

Lemma parse_rows content parsed rows :
  JSON_parse content = Some parsed ->
  single_unkeyed rows = None ->
  parseEditedContent content rows =
  try_catch
    (entries <- Object_entries parsed ;;
     Ok (map (fun kv =>
                {| key := Some (fst kv);
                   value := snd kv;
                   type := inferType (find_row (fst kv) rows) (snd kv) |})
             entries))
    (fun _ => Throw (Error "Invalid JSON format")).
Proof.
  intros Hc Hs. unfold parseEditedContent. now rewrite Hc, Hs.
Qed.








(** *** Normalizing and parsing back *)

Lemma normalized_fold_perm rows : forall obj,
  Forall (fun r => key_truthy (key r) = true) rows ->
  scalar_typed rows ->
  NoDup (map key rows) ->
  (forall r, In r rows -> obj_get (key_string r) obj = None) ->
  Permutation
    (fold_left
       (fun obj row =>
          if (negb (String.eqb (type row) "array")
              && negb (String.eqb (type row) "object"))%bool
          then set_keyed obj (key row) (value row)
          else obj)
       rows obj)
    (obj ++ pairs_of rows).
Proof.
  unfold pairs_of.
  induction rows as [|r rest IH]; intros obj Hk Ht Hnd Hfresh; simpl.
  - now rewrite app_nil_r.
  - inversion Hk as [|? ? Hkr Hk']; subst.
    inversion Ht as [|? ? [Ha Ho] Ht']; subst.
    inversion Hnd as [|? ? Hnotin Hnd']; subst.
    apply String.eqb_neq in Ha, Ho. rewrite Ha, Ho. simpl.
    unfold set_keyed. rewrite Hkr.
    destruct (key r) as [s|] eqn:Es; [|discriminate].
    assert (Hnew : obj_get s obj = None).
    { specialize (Hfresh r (or_introl eq_refl)).
      unfold key_string in Hfresh. now rewrite Es in Hfresh. }
    eapply perm_trans.
    + apply IH; auto.
      intros r' Hin.
      assert (Hne : key_string r' <> s).
      { intros Heq. apply Hnotin.
        rewrite Forall_forall in Hk'. specialize (Hk' r' Hin).
        unfold key_string in Heq. destruct (key r') as [s'|] eqn:Es'; [|discriminate].
        subst s'. rewrite <- Es'. now apply in_map. }
      rewrite obj_get_set_other by auto.
      apply Hfresh. now right.
    + unfold key_string at 2. rewrite Es.
      eapply perm_trans.
      * apply Permutation_app_tail. apply Permutation_sym.
        apply obj_set_new_perm. exact Hnew.
      * simpl. apply Permutation_middle.
Qed.

(** The object that [normalizeNodeData] fills holds the pairs of the rows,
    when they have scalar type tags and distinct keys that are not empty
    and that the object takes. *)
Lemma normalized_obj_pairs rows :
  scalar_typed rows ->
  well_keyed rows ->
  (forall r k, In r rows -> key r = Some k -> creates k) ->
  Permutation (normalized_obj rows) (pairs_of rows).
Proof.
  intros Ht [Hk Hnd] Hc.
  change (normalized_obj rows)
    with (props_of (fill (fun row => (negb (String.eqb (type row) "array")
                                      && negb (String.eqb (type row) "object"))%bool)
                      value rows (literal []))).
  rewrite fill_set_keyed by (intros r k Hin Hkey _; now apply (Hc r k)).
  cbn [props_of literal].
  apply (normalized_fold_perm rows []); auto.
Qed.

Lemma literal_text_ToString v t : literal_text v = Some t -> ToString v = t.
Proof.
  destruct v as [| |[|]|n|s|l|p]; simpl; intros H; inversion H; reflexivity.
Qed.

(** C5 (amended).  Parsing the normal form of a row set gives rows with the
    same pairs of key and value, up to their order, in these cases: the row
    set is empty; it is a single unkeyed row holding [null], a boolean or a
    number, whose literal the host reads back; or its rows have scalar type
    tags and distinct keys that are not empty nor that of the inherited
    setter, and the host reads an object holding the pairs of the rows back
    as an object holding the same pairs. *)
Theorem parse_inverts_normalize rows :
  scalar_typed rows ->
  (rows = [] -> JSON_parse "{}" = Some (VObj [])) ->
  (forall r, single_unkeyed rows = Some r ->
     exists t, literal_text (value r) = Some t /\ JSON_parse t = Some (value r)) ->
  (single_unkeyed rows = None ->
     well_keyed rows
     /\ (forall r k, In r rows -> key r = Some k -> creates k)
     /\ (forall o, Permutation o (pairs_of rows) ->
                   exists o', JSON_parse (JSON_stringify (VObj o)) = Some (VObj o')
                              /\ Permutation o' o)) ->
  exists rows',
    parseEditedContent (normalizeNodeData rows) rows = Ok rows'
    /\ Permutation (map key_value rows') (map key_value rows).
Proof.
  intros Ht Hempty Hsingle Hkeyed.
  destruct rows as [|r0 rest].
  { exists []. split; [|apply Permutation_refl].
    unfold parseEditedContent. simpl. now rewrite (Hempty eq_refl). }
  destruct (single_unkeyed (r0 :: rest)) as [r|] eqn:Es.
  - destruct (Hsingle r eq_refl) as (t & Hl & Hp).
    exists (r0 :: rest). split; [|apply Permutation_refl].
    assert (E : r0 :: rest = [r]).
    { destruct rest; simpl in Es; [|discriminate].
      destruct (key_truthy (key r0)); [discriminate|]. now inversion Es. }
    unfold normalizeNodeData, parseEditedContent. rewrite Es.
    rewrite (literal_text_ToString _ _ Hl), Hp. simpl.
    rewrite E. now destruct r.
  - destruct (Hkeyed eq_refl) as (Hw & Hc & Hrt).
    pose proof (normalized_obj_pairs _ Ht Hw Hc) as Hperm.
    assert (En : normalizeNodeData (r0 :: rest)
                 = JSON_stringify (VObj (normalized_obj (r0 :: rest)))).
    { unfold normalizeNodeData. now rewrite Es. }
    rewrite En. clear En Hempty Hsingle Hkeyed.
    remember (r0 :: rest) as rows eqn:Erows. clear Erows.
    destruct (Hrt _ Hperm) as (o' & Hread & Hperm').
    rewrite (parse_rows _ (VObj o')) by auto.
    cbn [Object_entries own_entries bind try_catch].
    eexists. split; [reflexivity|].
    rewrite map_map. unfold key_value at 1. simpl.
    eapply perm_trans.
    + apply Permutation_map. eapply perm_trans; [exact Hperm'|exact Hperm].
    + unfold pairs_of. rewrite map_map. simpl.
      erewrite map_ext_in; [apply Permutation_refl|].
      intros r Hin. unfold key_value, key_string.
      destruct Hw as [Hk _]. rewrite Forall_forall in Hk. specialize (Hk r Hin).
      destruct (key r); [reflexivity|discriminate].
Qed.

(** *** Coercion *)


(** C10.  Whatever the type tag, [parseValueByType] turns the string
    ["null"] and the value [null] into [null], in both snapshots of the
    file; so a row of type ["string"] whose value is the text ["null"]
    stores [null] under its key, not the string, where the key is a field
    of the object or any other key that the object takes. *)
Theorem null_text_becomes_null t :
  parseValueByType (VStr "null") t = VNull
  /\ parseValueByType VNull t = VNull
  /\ parseValueByType_earlier (VStr "null") t = VNull
  /\ parseValueByType_earlier VNull t = VNull
  /\ (forall k obj,
         String.eqb k "" = false ->
         takes_key obj k ->
         obj_get k (merge_rows obj [ {| key := Some k; value := VStr "null"; type := "string" |} ])
         = Some VNull).
Proof.
  repeat split.
  intros k obj Hk Ht. rewrite obj_get_merge_rows by auto. simpl.
  unfold keyed_as. simpl. rewrite String.eqb_refl, Hk. reflexivity.
Qed.

(** *** Edits at the root and at a place holding no object *)




End Properties.

(** ** Further properties of the editor *)

Section Coverage.
Context {HN : HostNumber} {HR : HostRealm} {HJ : HostJSON}.

(** *** Coercion *)

Lemma not_null_test v :
  (is_null v || is_string v "null")%bool = false <-> v <> VNull /\ v <> VStr "null".
Proof.
  split.
  - intros H. split; intros ->; discriminate.
  - intros [H1 H2]. destruct v; simpl; auto; try congruence.
    destruct (String.eqb s "null") eqn:E; auto.
    apply String.eqb_eq in E. congruence.
Qed.

(** X1.  Coercing twice with the same type tag gives what coercing once
    gives. *)
Theorem parseValueByType_idempotent v t :
  parseValueByType (parseValueByType v t) t = parseValueByType v t.
Proof.
  destruct (is_null v || is_string v "null")%bool eqn:G.
  - assert (E : parseValueByType v t = VNull)
      by (unfold parseValueByType; now rewrite G).
    rewrite E. reflexivity.
  - destruct (String.eqb t "boolean") eqn:Eb.
    + assert (E : parseValueByType v t
                  = VBool (is_true v || is_string v "true" || is_string v "1"))
        by (unfold parseValueByType; now rewrite G, Eb).
      rewrite E. unfold parseValueByType. rewrite Eb. simpl.
      now destruct (is_true v || is_string v "true" || is_string v "1")%bool.
    + destruct (String.eqb t "number") eqn:En.
      * assert (E : parseValueByType v t = VNum (ToNumber v))
          by (unfold parseValueByType; now rewrite G, Eb, En).
        rewrite E. unfold parseValueByType. rewrite Eb, En. reflexivity.
      * assert (E : parseValueByType v t = v).
        { unfold parseValueByType. rewrite G, Eb, En.
          now destruct (String.eqb t "object" || String.eqb t "array")%bool. }
        rewrite E. exact E.
Qed.

(** X2.  The result of a coercion is never the string ["null"]; for the tag
    ["boolean"] it is [null] or a boolean, for the tag ["number"] it is
    [null] or a number. *)
Theorem parseValueByType_result_kind v t :
  parseValueByType v t <> VStr "null"
  /\ (t = "boolean" ->
      parseValueByType v t = VNull \/ exists b, parseValueByType v t = VBool b)
  /\ (t = "number" ->
      parseValueByType v t = VNull \/ exists n, parseValueByType v t = VNum n).
Proof.
  unfold parseValueByType.
  destruct (is_null v || is_string v "null")%bool eqn:G.
  - repeat split; auto; discriminate.
  - apply not_null_test in G. destruct G as [_ Hs].
    split; [|split].
    + destruct (String.eqb t "boolean"); [discriminate|].
      destruct (String.eqb t "number"); [discriminate|].
      now destruct (String.eqb t "object" || String.eqb t "array")%bool.
    + intros ->. right. simpl. eauto.
    + intros ->. right. simpl. eauto.
Qed.

Lemma coerce_inferred original v :
  v <> VUndef ->
  (forall s, v = VStr s ->
             s <> "null"
             /\ declared_type original <> "boolean"
             /\ declared_type original <> "number") ->
  parseValueByType v (inferType original v) = v.
Proof.
  intros Hu Hs. destruct v as [| |b|n|s|l|p]; try reflexivity.
  - congruence.
  - now destruct b.
  - destruct (Hs s eq_refl) as (Hn & Hb & Hnum).
    unfold inferType. simpl.
    change (match original with
            | Some r => if String.eqb (type r) "" then "string" else type r
            | None => "string"
            end) with (declared_type original).
    unfold parseValueByType. simpl.
    apply String.eqb_neq in Hn, Hb, Hnum. rewrite Hn, Hb, Hnum.
    now destruct (String.eqb (declared_type original) "object"
                  || String.eqb (declared_type original) "array")%bool.
Qed.

(** X3.  The type tag that [parseEditedContent] infers for a parsed value
    makes the coercion of the patcher leave the value as it is: always for
    [null], booleans, numbers, arrays and objects; for a string when it is
    not ["null"] and the declared type of the original row is neither
    ["boolean"] nor ["number"]. *)
Theorem inferred_type_keeps_value original v :
  v <> VUndef ->
  (forall s, v = VStr s ->
             s <> "null"
             /\ declared_type original <> "boolean"
             /\ declared_type original <> "number") ->
  parseValueByType v (inferType original v) = v.
Proof. apply coerce_inferred. Qed.

(** X4.  The two snapshots of [parseValueByType] give the same result
    except on the boolean [true] with the tag ["boolean"], which the earlier
    one turns into [false]. *)
Theorem parseValueByType_snapshots v t :
  (parseValueByType_earlier v t = parseValueByType v t
   <-> ~ (v = VBool true /\ t = "boolean"))
  /\ parseValueByType_earlier (VBool true) "boolean" = VBool false
  /\ parseValueByType (VBool true) "boolean" = VBool true.
Proof.
  split; [|split; reflexivity].
  split.
  - intros H [-> ->]. discriminate.
  - intros H. unfold parseValueByType_earlier, parseValueByType.
    destruct (is_null v || is_string v "null")%bool; [reflexivity|].
    destruct (String.eqb t "boolean") eqn:Eb.
    + apply String.eqb_eq in Eb.
      destruct v as [| |[|]| | | |]; try reflexivity.
      exfalso. apply H. auto.
    + destruct (String.eqb t "number"); [reflexivity|].
      now destruct (String.eqb t "object" || String.eqb t "array")%bool.
Qed.

(** *** The content parser, again *)

(** X5.  [parseEditedContent] throws nothing but
    [Error("Invalid JSON format")], and it throws exactly when the text does
    not parse, or when the rows are not a single unkeyed row and the text
    parses to [null] (which has no entries). *)
Theorem parseEditedContent_throws_iff content rows e :
  parseEditedContent content rows = Throw e
  <-> e = Error "Invalid JSON format"
      /\ (JSON_parse content = None
          \/ (single_unkeyed rows = None
              /\ (JSON_parse content = Some VNull
                  \/ JSON_parse content = Some VUndef))).
Proof.
  unfold parseEditedContent.
  destruct (JSON_parse content) as [parsed|]; simpl.
  - destruct (single_unkeyed rows) as [r0|]; simpl.
    + split; [discriminate|].
      intros [_ [H|[H _]]]; discriminate.
    + destruct parsed; simpl;
        try (split; [discriminate|];
             intros [_ [H|[_ [H|H]]]]; discriminate).
      * split.
        -- intros H. inversion H; subst. auto.
        -- intros [-> _]. reflexivity.
      * split.
        -- intros H. inversion H; subst. auto.
        -- intros [-> _]. reflexivity.
  - split.
    + intros H. inversion H; subst. auto.
    + intros [-> _]. reflexivity.
Qed.

Lemma index_entries_nth elems : forall start i x,
  Forall (fun y => y <> VUndef) elems ->
  nth_error elems i = Some x ->
  nth_error (index_entries start elems) i
  = Some (string_of_N (start + N.of_nat i), x).
Proof.
  induction elems as [|y rest IH]; intros start i x Hd Hn.
  - destruct i; discriminate.
  - inversion Hd as [|? ? Hy Hd']; subst.
    assert (E : index_entries start (y :: rest)
                = (string_of_N start, y) :: index_entries (N.succ start) rest).
    { destruct y; try reflexivity. congruence. }
    rewrite E. destruct i as [|i]; simpl in *.
    + inversion Hn; subst. now rewrite N.add_0_r.
    + rewrite (IH (N.succ start) i x Hd' Hn). do 3 f_equal. lia.
Qed.

Lemma index_entries_length elems : forall start,
  Forall (fun y => y <> VUndef) elems ->
  length (index_entries start elems) = length elems.
Proof.
  induction elems as [|y rest IH]; intros start Hd; simpl; auto.
  inversion Hd as [|? ? Hy Hd']; subst.
  destruct y; simpl; try (now rewrite IH); congruence.
Qed.

(** X6.  When the text parses to an array (without holes, as [JSON.parse]
    gives them) and the rows are not a single unkeyed row, the result has
    one row per element, in order: the row of the element at index [i] has
    the decimal text of [i] as its key and the element as its value. *)
Theorem parse_array_rows content elems rows :
  JSON_parse content = Some (VArr elems) ->
  Forall (fun y => y <> VUndef) elems ->
  single_unkeyed rows = None ->
  exists rows',
    parseEditedContent content rows = Ok rows'
    /\ length rows' = length elems
    /\ (forall i x, nth_error elems i = Some x ->
          exists r, nth_error rows' i = Some r
                    /\ key r = Some (string_of_N (N.of_nat i))
                    /\ value r = x).
Proof.
  intros Hc Hd Hs.
  rewrite (parse_rows content (VArr elems)) by auto. simpl.
  eexists. split; [reflexivity|]. split.
  - rewrite length_map. now apply index_entries_length.
  - intros i x Hn.
    eexists. split.
    + rewrite nth_error_map, (index_entries_nth elems 0 i x Hd Hn). reflexivity.
    + simpl. auto.
Qed.

(** *** The value normalizer and the text shown *)

(** X7.  The object that [normalizeNodeData] prints has no key whose rows
    all have the type tag ["array"] or ["object"]; and under a key that is
    not empty nor that of the inherited setter, carried by a row with a
    scalar tag after which no row carries the key, it has the value of that
    row, as it is. *)
Theorem normalized_obj_lookup rows :
  (forall k,
      (forall r, In r rows -> key r = Some k ->
                 type r = "array" \/ type r = "object") ->
      obj_get k (normalized_obj rows) = None)
  /\ (forall before r after k,
         rows = before ++ r :: after ->
         key r = Some k -> k <> "" -> creates k ->
         type r <> "array" -> type r <> "object" ->
         (forall r', In r' after -> key r' <> Some k) ->
         obj_get k (normalized_obj rows) = Some (value r)).
Proof.
  set (f := fun row : NodeRow =>
              (negb (String.eqb (type row) "array")
               && negb (String.eqb (type row) "object"))%bool).
  assert (E : normalized_obj rows = props_of (fill f value rows (literal [])))
    by reflexivity.
  rewrite E. split.
  - intros k H.
    assert (Hn : last_row_where f k rows = None).
    { apply last_row_where_none. intros r Hin Hk. unfold f.
      destruct (H r Hin Hk) as [-> | ->]; reflexivity. }
    rewrite fill_lookup by now right. now rewrite Hn.
  - intros before r after k -> Hk Hne Hc Ha Ho Hafter.
    assert (Hl : last_row_where f k (before ++ r :: after) = Some r).
    { apply last_row_where_split; auto.
      unfold f. apply String.eqb_neq in Ha, Ho. now rewrite Ha, Ho. }
    rewrite fill_lookup by (left; now right). now rewrite Hl.
Qed.

(** X8.  When the stored document parses and the path of the selected node
    points to a value in it, the text shown is the printed form of that
    value, whatever the rows of the node hold. *)
Theorem normalizedContent_shows_document nd st j d v :
  json st = Some j ->
  JSON_parse j = Some d ->
  locate d (path_or_root nd) = Some v ->
  v <> VUndef ->
  normalizedContent (Some nd) st = JSON_stringify v.
Proof.
  intros Hj Hd Hloc Hv. unfold normalizedContent.
  rewrite Hj, Hd, (resolve_locate _ _ _ Hloc).
  destruct v; try reflexivity; congruence.
Qed.

(** *** The patcher, again *)


(** X10.  A patch leaves the other places of the document alone: a path
    that exists in the document and parts ways with the patched path, at a
    segment of another key than the patched one, which is not [length],
    points in the patched document to the value it pointed to before. *)
Theorem patch_leaves_other_paths json d common s t rest1 rest2 rows out v :
  JSON_parse json = Some d ->
  property_key t <> property_key s ->
  property_key s <> "length" ->
  locate d (common ++ t :: rest2) = Some v ->
  updateJsonWithNodeValue json (Some (common ++ s :: rest1)) rows = Ok out ->
  exists d',
    out = Some (JSON_stringify d')
    /\ locate d' (common ++ t :: rest2) = Some v.
Proof.
  intros Hj Hne Hl Hloc H.
  rewrite (update_nonempty json d) in H by (auto; destruct common; discriminate).
  destruct (write_path d (common ++ s :: rest1) (write_target rows)) as [r|] eqn:Hw;
    simpl in H; [|discriminate].
  assert (Hr : exists d', r = RVal d').
  { destruct common; cbn [app write_path] in Hw;
      now apply navigate_stays in Hw. }
  destruct Hr as [d' ->].
  inversion H; subst out. exists d'. split; auto.
  now apply (write_path_frame rows common d d' s t rest1 rest2).
Qed.







Lemma obj_replace_same_value k v props :
  obj_get k props = Some v -> obj_replace k v props = props.
Proof.
  induction props as [|[k' v'] rest IH]; simpl; auto.
  destruct (String.eqb k k') eqn:E.
  - apply String.eqb_eq in E. subst. intros H. now inversion H.
  - intros H. now rewrite IH.
Qed.

Lemma obj_set_same_value k v props :
  obj_get k props = Some v -> obj_set k v props = props.
Proof.
  intros H. unfold obj_set. rewrite H. now apply obj_replace_same_value.
Qed.

Lemma arr_set_same_value i v : forall elems,
  nth_error elems i = Some v -> arr_set i v elems = elems.
Proof.
  induction i as [|i IH]; intros [|y rest]; simpl; try discriminate.
  - intros H. now inversion H.
  - intros H. now rewrite IH.
Qed.

Lemma PutV_same_value parent s old :
  child parent s = Some old -> PutV parent (property_key s) old = Ok (RVal parent).
Proof.
  destruct parent; simpl; try discriminate.
  - destruct (array_index (property_key s)) as [n|]; [|discriminate].
    intros H. apply defined_some in H. destruct H as [H _].
    now rewrite arr_set_same_value.
  - intros H. apply defined_some in H. destruct H as [H _].
    rewrite H. now rewrite obj_set_same_value.
Qed.

Lemma put_back_same_value parent s c :
  child parent s = Some c -> put_back parent (property_key s) (RVal c) = RVal parent.
Proof.
  destruct parent; simpl; try discriminate.
  - destruct (array_index (property_key s)) as [n|]; [|discriminate].
    intros H. apply defined_some in H. destruct H as [H _].
    rewrite arr_set_same_value by auto.
    now destruct (N.to_nat n <? length elems)%nat.
  - intros H. apply defined_some in H. destruct H as [H _].
    now rewrite obj_replace_same_value.
Qed.

(** Writing to a place the value it holds gives the document back. *)
Lemma write_path_same rows rest : forall d s old,
  locate d (s :: rest) = Some old ->
  new_value rows old = old ->
  navigate_and_write d s rest (write_target rows) = Ok (RVal d).
Proof.
  induction rest as [|s' rest' IH]; intros d s old Hloc Hnew;
    cbn [locate] in Hloc; cbn [navigate_and_write].
  - destruct (child d s) as [c|] eqn:Ec; [|discriminate].
    inversion Hloc; subst c.
    rewrite (write_target_child rows d s old Ec), Hnew.
    now apply PutV_same_value.
  - destruct (child d s) as [c|] eqn:Ec; [|discriminate].
    rewrite (child_GetV _ _ _ Ec). cbn [bind].
    rewrite (IH c s' old Hloc Hnew). cbn [bind].
    now rewrite (put_back_same_value d s c).
Qed.

(** X13.  Patching a place with a single unkeyed row whose coerced value is
    the value the place holds returns the text of the same document. *)
Theorem patch_same_value_keeps_document json d p old r :
  JSON_parse json = Some d ->
  p <> [] ->
  locate d p = Some old ->
  key_truthy (key r) = false ->
  parseValueByType (value r) (type r) = old ->
  updateJsonWithNodeValue json (Some p) [r] = Ok (Some (JSON_stringify d)).
Proof.
  intros Hj Hp Hloc Hk Hv.
  rewrite (update_nonempty json d) by auto.
  destruct p as [|s rest]; [congruence|]. simpl.
  rewrite (write_path_same [r] rest d s old); auto.
  unfold new_value. simpl. now rewrite Hk.
Qed.

(** *** Parsing and patching together: the save handler *)

Lemma handleSave_success nodeData content st rows' j out :
  parseEditedContent content (text_of nodeData) = Ok rows' ->
  json st = Some j ->
  updateJsonWithNodeValue j (path_of nodeData) rows' = Ok out ->
  handleSave nodeData content st
  = {| json := out;
       contents := out;
       graph := out;
       toasts := toasts st ++ [toast_success "Node value updated!"];
       isEditing := false |}.
Proof.
  intros Hp Hj Hu. unfold handleSave. rewrite Hp. simpl. now rewrite Hj, Hu.
Qed.

Lemma parse_entries content parsed rows :
  JSON_parse content = Some parsed ->
  parsed <> VNull -> parsed <> VUndef ->
  single_unkeyed rows = None ->
  parseEditedContent content rows = Ok (rows_of_entries rows (own_entries parsed)).
Proof.
  intros Hc Hn Hu Hs. rewrite (parse_rows content parsed) by auto.
  destruct parsed; try congruence; reflexivity.
Qed.

Lemma single_unkeyed_rows_of_entries rows entries :
  (forall v, entries <> [("", v)]) ->
  single_unkeyed (rows_of_entries rows entries) = None.
Proof.
  intros H. destruct entries as [|[k v] [|e rest]]; try reflexivity.
  simpl. destruct (String.eqb k "") eqn:E; [|reflexivity].
  apply String.eqb_eq in E. subst. exfalso. now apply (H v).
Qed.

(** A keyed row set whose merge gives back the value of the place leaves
    the document as it is, at the root and below. *)
Lemma update_keyed_same j d nd rows' old :
  JSON_parse j = Some d ->
  locate d (path_or_root nd) = Some old ->
  single_unkeyed rows' = None ->
  new_value rows' old = old ->
  updateJsonWithNodeValue j (path nd) rows' = Ok (Some (JSON_stringify d)).
Proof.
  intros Hj Hloc Hs Hnew. unfold path_or_root in Hloc.
  destruct (path nd) as [[|s rest]|] eqn:Ep.
  - simpl in Hloc. inversion Hloc; subst old.
    rewrite (update_root j d (Some [])), Hs by auto.
    unfold new_value in Hnew. rewrite Hs in Hnew.
    change (own_entries d) with (spread d). now rewrite Hnew.
  - rewrite (update_nonempty j d) by (auto; discriminate). simpl.
    now rewrite (write_path_same rows' rest d s old).
  - simpl in Hloc. inversion Hloc; subst old.
    rewrite (update_root j d None), Hs by auto.
    unfold new_value in Hnew. rewrite Hs in Hnew.
    change (own_entries d) with (spread d). now rewrite Hnew.
Qed.

(** A keyed row set at the place of an object: the new document holds the
    merged object there. *)
Lemma update_keyed_object j d nd rows' props :
  JSON_parse j = Some d ->
  locate d (path_or_root nd) = Some (VObj props) ->
  single_unkeyed rows' = None ->
  exists d',
    updateJsonWithNodeValue j (path nd) rows' = Ok (Some (JSON_stringify d'))
    /\ resolve d' (path_or_root nd) = VObj (merge_rows props rows').
Proof.
  intros Hj Hloc Hs. unfold path_or_root in *.
  destruct (path nd) as [p|] eqn:Ep.
  - now apply (update_merges_object j d).
  - simpl in Hloc. inversion Hloc; subst d.
    rewrite (update_root j (VObj props) None), Hs by auto.
    eexists. split; reflexivity.
Qed.

Lemma In_obj_get props : NoDup (map fst props) ->
  forall k v, In (k, v) props -> obj_get k props = Some v.
Proof.
  induction props as [|[k' v'] rest IH]; simpl; intros Hnd k v Hin; [tauto|].
  inversion Hnd as [|? ? Hnotin Hnd']; subst.
  destruct Hin as [H|H].
  - inversion H; subst. now rewrite String.eqb_refl.
  - destruct (String.eqb k k') eqn:E.
    + apply String.eqb_eq in E. subst. exfalso. apply Hnotin.
      change k' with (fst (k', v)). now apply in_map.
    + now apply IH.
Qed.

(** Merging into an object the rows made of its own properties gives the
    object back. *)
Lemma merge_rows_self rows props :
  NoDup (map fst props) ->
  editable_as_is rows props ->
  merge_rows props (rows_of_entries rows props) = props.
Proof.
  intros Hnd Hed.
  assert (H : forall l, (forall k v, In (k, v) l -> In (k, v) props) ->
                        fill (fun _ => true)
                          (fun r => parseValueByType (value r) (type r))
                          (rows_of_entries rows l) (literal props)
                        = literal props).
  { induction l as [|[k v] rest IH]; intros Hsub; [reflexivity|].
    assert (Hin : In (k, v) props) by (apply Hsub; simpl; auto).
    destruct (Hed k v Hin) as [Hu Hs].
    assert (E : assign_keyed (literal props) (Some k)
                  (parseValueByType v (inferType (find_row k rows) v))
                = literal props).
    { rewrite (coerce_inferred (find_row k rows) v Hu Hs).
      unfold assign_keyed. simpl.
      destruct (String.eqb k ""); simpl; auto.
      rewrite assign_takes
        by (left; simpl; rewrite (In_obj_get props Hnd k v Hin); discriminate).
      simpl. now rewrite (obj_set_same_value k v props (In_obj_get props Hnd k v Hin)). }
    unfold fill, rows_of_entries. cbn [map fold_left key value type fst snd].
    rewrite E. apply IH. intros; apply Hsub; simpl; auto. }
  rewrite merge_rows_fill, H; auto.
Qed.

(** X14.  Edit and Save without a change.  The selected node is an object
    of the stored document, with distinct keys, other than the object whose
    only key is the empty string; the host prints it and reads it back as
    it is; the original rows are not a single unkeyed row; and the
    properties are in step with the rows: none is [undefined], and one that
    is a string is not ["null"] and has no original row of declared type
    ["boolean"] or ["number"].  Then the save stores the text of the same
    document, shows the success toast and ends the editing. *)
Theorem save_unedited_object nd dlg j d props :
  json (stores dlg) = Some j ->
  JSON_parse j = Some d ->
  locate d (path_or_root nd) = Some (VObj props) ->
  single_unkeyed (text nd) = None ->
  NoDup (map fst props) ->
  editable_as_is (text nd) props ->
  (forall v, props <> [("", v)]) ->
  JSON_parse (JSON_stringify (VObj props)) = Some (VObj props) ->
  stores (save_click (Some nd) (handleEditClick (Some nd) dlg))
  = {| json := Some (JSON_stringify d);
       contents := Some (JSON_stringify d);
       graph := Some (JSON_stringify d);
       toasts := toasts (stores dlg) ++ [toast_success "Node value updated!"];
       isEditing := false |}.
Proof.
  intros Hj Hd Hloc Hs Hnd Hed Hne Hrt.
  unfold save_click, handleEditClick. cbn [stores editedContent].
  assert (Hshow : normalizedContent (Some nd) (stores dlg)
                  = JSON_stringify (VObj props)).
  { unfold normalizedContent. now rewrite Hj, Hd, (resolve_locate _ _ _ Hloc). }
  rewrite Hshow.
  apply (handleSave_success (Some nd) _ (set_editing true (stores dlg))
           (rows_of_entries (text nd) props) j).
  - now rewrite (parse_entries _ (VObj props)) by (auto; discriminate).
  - exact Hj.
  - apply (update_keyed_same j d nd _ (VObj props)); auto.
    + now apply single_unkeyed_rows_of_entries.
    + unfold new_value.
      rewrite single_unkeyed_rows_of_entries by auto. simpl.
      now rewrite merge_rows_self.
Qed.

(** X15.  An edited text without entries (a number, a boolean, [{}], [[]])
    changes nothing in a node that is an object and whose rows are not a
    single unkeyed row: the save stores the text of the same document, and
    reports success. *)
Theorem save_text_without_entries nd st j d props content parsed :
  json st = Some j ->
  JSON_parse j = Some d ->
  locate d (path_or_root nd) = Some (VObj props) ->
  single_unkeyed (text nd) = None ->
  JSON_parse content = Some parsed ->
  Object_entries parsed = Ok [] ->
  handleSave (Some nd) content st
  = {| json := Some (JSON_stringify d);
       contents := Some (JSON_stringify d);
       graph := Some (JSON_stringify d);
       toasts := toasts st ++ [toast_success "Node value updated!"];
       isEditing := false |}.
Proof.
  intros Hj Hd Hloc Hs Hc He.
  apply (handleSave_success (Some nd) content st [] j).
  - simpl. rewrite (parse_rows content parsed) by auto. now rewrite He.
  - exact Hj.
  - now apply (update_keyed_same j d nd [] (VObj props)).
Qed.

(** X16.  Editing never removes a key: when the node is an object, its rows
    are not a single unkeyed row, and the edited text parses to a value
    whose entries are not the empty key alone, the save stores a document
    whose object at the path still has every key it had. *)
Theorem save_never_removes_a_key nd st j d props content parsed :
  json st = Some j ->
  JSON_parse j = Some d ->
  locate d (path_or_root nd) = Some (VObj props) ->
  single_unkeyed (text nd) = None ->
  JSON_parse content = Some parsed ->
  parsed <> VNull -> parsed <> VUndef ->
  (forall v, own_entries parsed <> [("", v)]) ->
  exists d' props',
    json (handleSave (Some nd) content st) = Some (JSON_stringify d')
    /\ resolve d' (path_or_root nd) = VObj props'
    /\ (forall k, obj_get k props <> None -> obj_get k props' <> None).
Proof.
  intros Hj Hd Hloc Hs Hc Hn Hu Hne.
  set (rows' := rows_of_entries (text nd) (own_entries parsed)).
  destruct (update_keyed_object j d nd rows' props Hd Hloc) as (d' & H1 & H2).
  { now apply single_unkeyed_rows_of_entries. }
  exists d', (merge_rows props rows'). split; [|split; auto].
  - rewrite (handleSave_success (Some nd) content st rows' j _
               (parse_entries _ _ _ Hc Hn Hu Hs) Hj H1).
    reflexivity.
  - intros k Hk. now apply merge_rows_keeps.
Qed.

(** X17.  The empty key alone: when the edited text parses to an object
    whose only key is the empty string, the rows made of it count as a
    single unkeyed row, and at a path that is not empty the save puts the
    coerced value of that key in the place of the node. *)
Theorem save_empty_key_replaces_node nd st j d p old content v :
  json st = Some j ->
  JSON_parse j = Some d ->
  path nd = Some p -> p <> [] ->
  locate d p = Some old ->
  single_unkeyed (text nd) = None ->
  JSON_parse content = Some (VObj [("", v)]) ->
  exists d',
    json (handleSave (Some nd) content st) = Some (JSON_stringify d')
    /\ resolve d' p
       = parseValueByType v (inferType (find_row "" (text nd)) v).
Proof.
  intros Hj Hd Hp Hne Hloc Hs Hc.
  set (r := {| key := Some "";
               value := v;
               type := inferType (find_row "" (text nd)) v |}).
  assert (Hparse : parseEditedContent content (text_of (Some nd)) = Ok [r]).
  { simpl. now rewrite (parse_rows content (VObj [("", v)])) by auto. }
  destruct (write_path_existing [r] p d old Hne Hloc) as (d' & H1 & H2).
  assert (Hupd : updateJsonWithNodeValue j (path_of (Some nd)) [r]
                 = Ok (Some (JSON_stringify d'))).
  { simpl. rewrite Hp, (update_nonempty j d) by auto. now rewrite H1. }
  exists d'. split.
  - now rewrite (handleSave_success (Some nd) content st [r] j _ Hparse Hj Hupd).
  - rewrite H2. reflexivity.
Qed.

(** X18.  Edit and Save without a change, for a node that is a single
    unkeyed row: when the value at the path is printed and read back by the
    host as it is, and the type tag of the row leaves the value as it is
    (at the root no tag is applied), the save stores the text of the same
    document. *)
Theorem save_unedited_leaf nd dlg j d v r0 :
  json (stores dlg) = Some j ->
  JSON_parse j = Some d ->
  locate d (path_or_root nd) = Some v ->
  v <> VUndef ->
  single_unkeyed (text nd) = Some r0 ->
  JSON_parse (JSON_stringify v) = Some v ->
  (path_or_root nd <> [] -> parseValueByType v (type r0) = v) ->
  json (stores (save_click (Some nd) (handleEditClick (Some nd) dlg)))
  = Some (JSON_stringify d).
Proof.
  intros Hj Hd Hloc Hv Hs Hrt Hco.
  unfold save_click, handleEditClick. cbn [stores editedContent].
  assert (Hshow : normalizedContent (Some nd) (stores dlg) = JSON_stringify v).
  { unfold normalizedContent. rewrite Hj, Hd, (resolve_locate _ _ _ Hloc).
    destruct v; try reflexivity; congruence. }
  rewrite Hshow.
  set (r := {| key := key r0; value := v; type := type r0 |}).
  assert (Hkey : key_truthy (key r0) = false).
  { destruct (text nd) as [|a [|b rest]]; simpl in Hs; try discriminate.
    destruct (key_truthy (key a)) eqn:E; [discriminate|].
    inversion Hs; subst. exact E. }
  assert (Hparse : parseEditedContent (JSON_stringify v) (text_of (Some nd)) = Ok [r]).
  { simpl. unfold parseEditedContent. now rewrite Hrt, Hs. }
  assert (Hsingle : single_unkeyed [r] = Some r) by (simpl; now rewrite Hkey).
  assert (Hupd : updateJsonWithNodeValue j (path_of (Some nd)) [r]
                 = Ok (Some (JSON_stringify d))).
  { simpl. unfold path_or_root in *.
    destruct (path nd) as [[|s rest]|] eqn:Ep.
    - simpl in Hloc. inversion Hloc; subst v.
      rewrite (update_root j d (Some [])), Hsingle by auto.
      subst r. simpl. destruct d; try reflexivity; congruence.
    - rewrite (update_nonempty j d) by (auto; discriminate). simpl.
      rewrite (write_path_same [r] rest d s v); auto.
      unfold new_value. rewrite Hsingle. simpl. apply Hco. discriminate.
    - simpl in Hloc. inversion Hloc; subst v.
      rewrite (update_root j d None), Hsingle by auto.
      subst r. simpl. destruct d; try reflexivity; congruence. }
  now rewrite (handleSave_success (Some nd) _ (set_editing true (stores dlg))
                 [r] j _ Hparse Hj Hupd).
Qed.

(** *** The earlier snapshot *)

Lemma merge_rows_earlier_fill props rows :
  merge_rows_earlier props rows
  = props_of (fill (fun _ => true)
                (fun r => parseValueByType_earlier (value r) (type r))
                rows (literal props)).
Proof. reflexivity. Qed.

Lemma obj_get_merge_rows_earlier k rows props :
  takes_key props k \/ last_row k rows = None ->
  obj_get k (merge_rows_earlier props rows) =
  match last_row k rows with
  | Some r => Some (parseValueByType_earlier (value r) (type r))
  | None => obj_get k props
  end.
Proof.
  intros H. rewrite merge_rows_earlier_fill, fill_lookup.
  - now rewrite last_row_where_all.
  - now rewrite last_row_where_all.
Qed.

Lemma earlier_update_keyed json d p old rows :
  JSON_parse json = Some d ->
  locate d p = Some old ->
  single_unkeyed rows = None ->
  exists d',
    updateJsonWithNodeValue_earlier json (Some p) rows
      = Ok (Some (JSON_stringify d'))
    /\ resolve d' p = VObj (merge_rows_earlier [] rows).
Proof.
  intros Hj Hloc Hs.
  unfold updateJsonWithNodeValue_earlier. rewrite Hj.
  destruct p as [|s rest].
  - rewrite Hs. eexists. split; reflexivity.
  - destruct (exists_last (l := s :: rest)) as (prefix & last & E); [discriminate|].
    rewrite E in Hloc. rewrite locate_app in Hloc.
    destruct (locate d prefix) as [parent|] eqn:Ep; [|discriminate].
    simpl in Hloc. destruct (child parent last) as [c|] eqn:Ec; [|discriminate].
    destruct (PutV_own parent last c (VObj (merge_rows_earlier [] rows)) Ec)
      as (parent' & P1 & P2 & P3).
    destruct (write_path_at (write_target_earlier rows) prefix d last parent parent' Ep)
      as (d' & H1 & H2).
    { unfold write_target_earlier. now rewrite Hs. }
    rewrite <- E in H1. cbn [write_path] in H1. rewrite H1. cbn [bind].
    exists d'. split; [reflexivity|].
    rewrite E, resolve_app, H2. cbn [resolve].
    now rewrite (GetV_own parent' _ _ P3 P2).
Qed.

(** X19.  In the earlier snapshot a keyed row set replaces the object at
    the path: the new object has no key but those the rows carry, so that
    what the old object held under a key that no row carries is lost; under
    a key that is not empty nor that of the inherited setter it has the
    coerced value of the last row carrying the key. *)
Theorem earlier_update_replaces_object json d p props rows :
  JSON_parse json = Some d ->
  locate d p = Some (VObj props) ->
  single_unkeyed rows = None ->
  exists d' props',
    updateJsonWithNodeValue_earlier json (Some p) rows
      = Ok (Some (JSON_stringify d'))
    /\ resolve d' p = VObj props'
    /\ (forall k, (forall r, In r rows -> key r <> Some k) ->
                  obj_get k props' = None)
    /\ (forall before r after k,
          rows = before ++ r :: after ->
          key r = Some k -> k <> "" -> creates k ->
          (forall r', In r' after -> key r' <> Some k) ->
          obj_get k props'
          = Some (parseValueByType_earlier (value r) (type r))).
Proof.
  intros Hj Hloc Hs.
  destruct (earlier_update_keyed json d p (VObj props) rows Hj Hloc Hs)
    as (d' & H1 & H2).
  exists d', (merge_rows_earlier [] rows).
  split; [exact H1|]. split; [exact H2|]. split.
  - intros k Hk.
    rewrite obj_get_merge_rows_earlier, last_row_none; auto.
    right. now apply last_row_none.
  - intros before r after k -> Hk Hne Hc Hafter.
    rewrite obj_get_merge_rows_earlier, (last_row_split k before r after); auto.
    left. now right.
Qed.



(** *** The path shown *)

Lemma append_assoc_string (a b c : string) :
  String.append (String.append a b) c = String.append a (String.append b c).
Proof. induction a as [|x a IH]; simpl; auto. now rewrite IH. Qed.

Lemma join_bracketed p : p <> [] ->
  String.append "["
    (String.append (join "][" (map seg_text p)) "]")
  = bracketed p.
Proof.
  induction p as [|s [|s' rest] IH]; intros H; [congruence| |].
  - reflexivity.
  - specialize (IH ltac:(discriminate)).
    change (bracketed (s :: s' :: rest))
      with (String.append "["
              (String.append (seg_text s)
                 (String.append "]" (bracketed (s' :: rest))))).
    rewrite <- IH.
    change (join "][" (map seg_text (s :: s' :: rest)))
      with (String.append (seg_text s)
              (String.append "][" (join "][" (map seg_text (s' :: rest))))).
    rewrite !append_assoc_string. reflexivity.
Qed.

Lemma jsonPathToString_bracketed p :
  jsonPathToString (Some p) = String.append "$" (bracketed p).
Proof.
  destruct p as [|s rest]; [reflexivity|].
  rewrite <- join_bracketed by discriminate.
  reflexivity.
Qed.

(** Two texts that go on with the same character after parts free of it
    have the same parts. *)
Lemma split_at_char c : forall a b x y,
  ~ In c (list_ascii_of_string a) ->
  ~ In c (list_ascii_of_string b) ->
  String.append a (String c x) = String.append b (String c y) ->
  a = b /\ x = y.
Proof.
  induction a as [|a0 a IH]; intros [|b0 b] x y Ha Hb H; simpl in *.
  - inversion H. auto.
  - inversion H; subst. exfalso. apply Hb. auto.
  - inversion H; subst. exfalso. apply Ha. auto.
  - inversion H; subst.
    destruct (IH b x y) as [-> ->]; auto.
Qed.

Lemma digits_free_of c d :
  c <> "0"%char -> c <> "1"%char -> c <> "2"%char -> c <> "3"%char ->
  c <> "4"%char -> c <> "5"%char -> c <> "6"%char -> c <> "7"%char ->
  c <> "8"%char -> c <> "9"%char ->
  ~ In c (list_ascii_of_string (NilEmpty.string_of_uint d)).
Proof.
  intros. induction d; simpl; intros Hin; try tauto;
    destruct Hin as [E|E]; try congruence; tauto.
Qed.

Lemma string_of_N_free_of c n :
  c = quote_mark \/ c = "]"%char ->
  ~ In c (list_ascii_of_string (string_of_N n)).
Proof.
  intros [-> | ->]; apply digits_free_of; discriminate.
Qed.

Lemma string_of_N_head n :
  exists c rest, string_of_N n = String c rest /\ c <> quote_mark.
Proof.
  pose proof (string_of_N_free_of quote_mark n (or_introl eq_refl)) as Hfree.
  unfold string_of_N in *.
  assert (Hnil : N.to_uint n <> Decimal.Nil).
  { destruct n; simpl; [discriminate|].
    apply DecimalPos.Unsigned.to_uint_nonnil. }
  destruct (NilEmpty.string_of_uint (N.to_uint n)) as [|c rest] eqn:E.
  - destruct (N.to_uint n); simpl in E; try discriminate. congruence.
  - exists c, rest. split; auto. intros ->. apply Hfree. simpl. auto.
Qed.

Lemma string_of_N_inj n m : string_of_N n = string_of_N m -> n = m.
Proof.
  unfold string_of_N. intros H.
  apply DecimalN.Unsigned.to_uint_inj.
  assert (E : NilEmpty.uint_of_string (NilEmpty.string_of_uint (N.to_uint n))
              = NilEmpty.uint_of_string (NilEmpty.string_of_uint (N.to_uint m)))
    by now rewrite H.
  rewrite !NilEmpty.usu in E. now inversion E.
Qed.

Lemma seg_text_split s t x y :
  (forall k, s = SKey k -> quote_free_key k) ->
  (forall k, t = SKey k -> quote_free_key k) ->
  String.append (seg_text s) (String "]" x)
  = String.append (seg_text t) (String "]" y) ->
  s = t /\ x = y.
Proof.
  intros Hs Ht H. destruct s as [k|n], t as [k'|m]; simpl in H.
  - inversion H as [H'].
    rewrite !append_assoc_string in H'. simpl in H'.
    destruct (split_at_char quote_mark k k' _ _ (Hs k eq_refl) (Ht k' eq_refl) H')
      as [-> E].
    inversion E. auto.
  - exfalso. destruct (string_of_N_head m) as (c & rest & E & Hc).
    rewrite E in H. simpl in H. inversion H. congruence.
  - exfalso. destruct (string_of_N_head n) as (c & rest & E & Hc).
    rewrite E in H. simpl in H. inversion H. congruence.
  - destruct (split_at_char "]"%char (string_of_N n) (string_of_N m) x y) as [E ->];
      auto using string_of_N_free_of.
    apply string_of_N_inj in E. subst. auto.
Qed.

Lemma bracketed_inj p : forall q,
  quote_free p -> quote_free q -> bracketed p = bracketed q -> p = q.
Proof.
  induction p as [|s p' IH]; intros [|t q'] Hp Hq H; simpl in H;
    try discriminate; auto.
  inversion H as [H'].
  destruct (seg_text_split s t (bracketed p') (bracketed q')) as [-> E]; auto.
  - intros k ->. apply Hp. simpl. auto.
  - intros k ->. apply Hq. simpl. auto.
  - f_equal. apply IH; auto.
    + intros k Hin. apply Hp. simpl. auto.
    + intros k Hin. apply Hq. simpl. auto.
Qed.

(** X21.  The text of a path is ["$"] exactly for the empty path; and two
    paths whose keys hold no double quote have the same text only when they
    are the same path.  Keys are not escaped: with a quote in a key, two
    paths can share a text. *)
Theorem jsonPathToString_injective :
  (forall path, jsonPathToString path = "$" <-> root_path path = true)
  /\ (forall p q, quote_free p -> quote_free q ->
                  jsonPathToString (Some p) = jsonPathToString (Some q) -> p = q)
  /\ (exists p q, p <> q /\ jsonPathToString (Some p) = jsonPathToString (Some q)).
Proof.
  split; [|split].
  - intros [[|s rest]|]; simpl; try tauto.
    split; [|discriminate].
    change (jsonPathToString (Some (s :: rest)) = "$" -> false = true).
    rewrite jsonPathToString_bracketed. simpl. discriminate.
  - intros p q Hp Hq H. rewrite !jsonPathToString_bracketed in H.
    inversion H. now apply bracketed_inj.
  - exists [SKey "a"; SKey "b"].
    exists [SKey (String.append "a"
                    (String quote_mark
                       (String.append "]["
                          (String quote_mark "b"))))].
    split; [discriminate|reflexivity].
Qed.


End Coverage.
(** ** The theorems at the sample documents *)

Module Examples.

Import Samples.
#[local] Existing Instance RefHost.ref_number.
#[local] Existing Instance RefHost.ref_realm.
#[local] Existing Instance RefHost.ref_json.


Ltac creates_sample := intros rc; destruct rc; reflexivity.


(** Through an inherited member the path leaves the document: in
    [{"a": 1}] the path [constructor, x] reaches the function [Object], which
    takes the property [x], and the document comes back as it was; the
    path [constructor, caller, x] throws where [caller] is read. *)
Example patch_through_inherited_example :
  updateJsonWithNodeValue (text_of_doc doc_a)
    (Some [SKey "constructor"; SKey "x"]) [row_five]
  = Ok (Some (text_of_doc doc_a))
  /\ updateJsonWithNodeValue (text_of_doc doc_a)
       (Some [SKey "constructor"; SKey "caller"; SKey "x"]) [row_five]
     = Throw TypeError.
Proof. split; reflexivity. Qed.

(** The key [__proto__] is that of the inherited setter: written into
    [{"a": 1}], by a single row or as the key of a row beside the row
    [x: 1], it adds no property. *)
Example patch_proto_key_example :
  updateJsonWithNodeValue (text_of_doc doc_a) (Some [SKey "__proto__"]) [row_five]
  = Ok (Some (text_of_doc doc_a))
  /\ updateJsonWithNodeValue (text_of_doc doc_a) (Some [])
       [ {| key := Some "__proto__"; value := int 1; type := "number" |}; row_x ]
     = Ok (Some (text_of_doc (VObj [("a", int 1); ("x", int 1)]))).
Proof. split; reflexivity. Qed.

(** The [length] of an array: in [{"a": [10, 20]}] the path [a, length]
    with the number 1 cuts the array, and with the text [hello] it throws a
    RangeError. *)
Example patch_array_length_example :
  updateJsonWithNodeValue (text_of_doc doc_arr) (Some [SKey "a"; SKey "length"])
    [ {| key := None; value := int 1; type := "number" |} ]
  = Ok (Some (text_of_doc (VObj [("a", VArr [int 10])])))
  /\ updateJsonWithNodeValue (text_of_doc doc_arr) (Some [SKey "a"; SKey "length"])
       [row_hello]
     = Throw RangeError.
Proof. split; reflexivity. Qed.


(** A scalar in the way: in [{"a": 1}] the path [a, b] has the number 1
    before its last segment, and the write throws. *)
Example patch_below_scalar_example :
  updateJsonWithNodeValue (text_of_doc doc_a) (Some [SKey "a"; SKey "b"]) [row_five]
  = Throw TypeError.
Proof. reflexivity. Qed.



(** A coerced value that is [NaN] is in the merged object, and is printed
    as [null]: the row [age: abc] of type number. *)
Example merge_prints_nan_as_null_example :
  updateJsonWithNodeValue (text_of_doc doc_customer) (Some [SKey "customer"])
    [ {| key := Some "age"; value := VStr "abc"; type := "number" |} ]
  = Ok (Some (text_of_doc
                (VObj [("customer", VObj [("name", VStr "Al"); ("age", VNull)])]))).
Proof. reflexivity. Qed.

(** The third example of the spec: [name] and [vip] survive, [age] is 31. *)
Example merge_preserves_siblings_example :
  updateJsonWithNodeValue (text_of_doc doc_vip) (Some [SKey "customer"]) [row_age]
  = Ok (Some (text_of_doc
                (VObj [("customer",
                        VObj [("name", VStr "Al"); ("age", int 31); ("vip", VBool true)])]))).
Proof. reflexivity. Qed.

(** The same through the save handler, with the edited text of
    [{"age": 31}]. *)
Example merge_preserves_siblings_saved_example :
  json (handleSave (Some node_vip) (text_of_doc (VObj [("age", int 31)]))
                   (store_of doc_vip))
  = Some (text_of_doc
            (VObj [("customer",
                    VObj [("name", VStr "Al"); ("age", int 31); ("vip", VBool true)])])).
Proof. reflexivity. Qed.

(** The second example of the spec, through the save handler: the node
    [customer] of [{"customer": {"name": "Al", "age": 30}}] is edited to the
    text of [{"name": "Al", "age": 31}]. *)
Example nested_edit_example :
  handleSave (Some node_customer)
             (text_of_doc (VObj [("name", VStr "Al"); ("age", int 31)]))
             (store_of doc_customer)
  = {| json := Some (text_of_doc
                       (VObj [("customer", VObj [("name", VStr "Al"); ("age", int 31)])]));
       contents := Some (text_of_doc
                       (VObj [("customer", VObj [("name", VStr "Al"); ("age", int 31)])]));
       graph := Some (text_of_doc
                       (VObj [("customer", VObj [("name", VStr "Al"); ("age", int 31)])]));
       toasts := [toast_success "Node value updated!"];
       isEditing := false |}.
Proof. reflexivity. Qed.

(** C3, witness: the text [{not json] is rejected and nothing is stored. *)
Lemma invalid_text_is_rejected_witness :
  (forall rows,
      parseEditedContent not_json rows = Throw (Error "Invalid JSON format"))
  /\ (forall nodeData st,
         json (handleSave nodeData not_json st) = json st
         /\ contents (handleSave nodeData not_json st) = contents st
         /\ graph (handleSave nodeData not_json st) = graph st
         /\ isEditing (handleSave nodeData not_json st) = isEditing st).
Proof.
  apply (invalid_text_is_rejected not_json).
  reflexivity.
Defined.



(** C5, witness: two keyed scalar rows. *)
Lemma parse_inverts_normalize_witness :
  exists rows',
    parseEditedContent (normalizeNodeData rows_scalar) rows_scalar = Ok rows'
    /\ Permutation (map key_value rows') (map key_value rows_scalar).
Proof.
  apply (parse_inverts_normalize rows_scalar).
  - repeat constructor; discriminate.
  - discriminate.
  - discriminate.
  - intros _. split; [|split].
    + split.
      * repeat constructor.
      * repeat constructor; simpl; intuition discriminate.
    + intros r k [<-|[<-|[]]] E; inversion E; subst; creates_sample.
    + intros o Hp. apply Permutation_sym in Hp.
      apply Permutation_length_2_inv in Hp.
      destruct Hp as [-> | ->]; eexists; (split; [reflexivity|]).
      * apply perm_swap.
      * apply Permutation_refl.
Defined.

(** The same for a single unkeyed number row, for the empty row set, and
    for a single unkeyed row holding [true]. *)
Example parse_inverts_normalize_number_example :
  normalizeNodeData [row_five] = "5"
  /\ parseEditedContent (normalizeNodeData [row_five]) [row_five] = Ok [row_five]
  /\ parseEditedContent (normalizeNodeData []) [] = Ok []
  /\ parseEditedContent
       (normalizeNodeData [ {| key := None; value := VBool true; type := "boolean" |} ])
       [ {| key := None; value := VBool true; type := "boolean" |} ]
     = Ok [ {| key := None; value := VBool true; type := "boolean" |} ].
Proof. repeat split. Qed.

(** C5, counterexample: the single unkeyed row of a string node holding
    [hello] has a scalar type; its normal form is the bare text [hello],
    which is not JSON, so parsing it back fails. *)
Lemma parse_normalize_string_counterexample :
  scalar_typed [row_hello]
  /\ normalizeNodeData [row_hello] = "hello"
  /\ parseEditedContent (normalizeNodeData [row_hello]) [row_hello]
     = Throw (Error "Invalid JSON format").
Proof.
  split; [|split; reflexivity].
  repeat constructor; discriminate.
Qed.

(** *** No string row parses back, on the reference host *)

Lemma skip_ws_length cs : length (RefHost.skip_ws cs) <= length cs.
Proof.
  induction cs as [|c rest IH]; simpl; auto.
  destruct (RefHost.is_json_space c); simpl; lia.
Qed.

Lemma string_of_list_length l : String.length (string_of_list_ascii l) = length l.
Proof. induction l; simpl; auto. Qed.

(** A string that is read is shorter than the text it is read from, which
    holds its closing quote as well. *)
Lemma read_string_length fuel : forall cs acc t r,
  RefHost.read_string fuel cs acc = Some (t, r) ->
  String.length t + length r + 1 <= length acc + length cs.
Proof.
  induction fuel as [|fuel IH]; intros cs acc t r H; simpl in H; [discriminate|].
  destruct cs as [|c rest]; [discriminate|].
  destruct (RefHost.code c =? 34)%N.
  { inversion H; subst. rewrite string_of_list_length, length_rev. simpl. lia. }
  destruct (RefHost.code c =? 92)%N.
  { destruct rest as [|e rest']; [discriminate|].
    repeat match type of H with
           | context [if ?b then _ else _] =>
               destruct b; [apply IH in H; simpl in *; lia|]
           end.
    destruct (Ascii.eqb e "u"); [|discriminate].
    destruct rest' as [|h1 [|h2 [|h3 [|h4 rest'']]]]; try discriminate.
    destruct (RefHost.hex4 h1 h2 h3 h4); [|discriminate].
    destruct (n <? 256)%N; [|discriminate].
    apply IH in H. simpl in *. lia. }
  destruct (RefHost.code c <? 32)%N; [discriminate|].
  apply IH in H. simpl in *. lia.
Qed.

Lemma read_elements_array fuel : forall cs acc v r,
  RefHost.read_elements fuel cs acc = Some (v, r) -> exists l, v = VArr l.
Proof.
  induction fuel as [|fuel IH]; intros cs acc v r H; simpl in H; [discriminate|].
  destruct (RefHost.skip_ws cs) as [|c rest]; [discriminate|].
  destruct (Ascii.eqb c "]") eqn:E1.
  { apply Ascii.eqb_eq in E1. subst c. inversion H; subst. eauto. }
  destruct (Ascii.eqb c ",") eqn:E2.
  { apply Ascii.eqb_eq in E2. subst c.
    destruct (RefHost.read_value fuel rest) as [[x r']|]; [|discriminate].
    now apply IH in H. }
  exfalso. apply Ascii.eqb_neq in E1, E2.
  destruct c as [[] [] [] [] [] [] [] []]; try discriminate; congruence.
Qed.

Lemma read_members_object fuel : forall cs acc v r,
  RefHost.read_members fuel cs acc = Some (v, r) -> exists l, v = VObj l.
Proof.
  induction fuel as [|fuel IH]; intros cs acc v r H; simpl in H; [discriminate|].
  destruct (RefHost.skip_ws cs) as [|c rest]; [discriminate|].
  destruct (RefHost.code c =? 34)%N; [|discriminate].
  destruct (RefHost.read_string (length rest) rest []) as [[k r1]|]; [|discriminate].
  destruct (RefHost.skip_ws r1) as [|c1 r2]; [discriminate|].
  destruct (Ascii.eqb c1 ":") eqn:E1.
  2:{ exfalso. apply Ascii.eqb_neq in E1.
      destruct c1 as [[] [] [] [] [] [] [] []]; try discriminate; congruence. }
  apply Ascii.eqb_eq in E1. subst c1.
  destruct (RefHost.read_value fuel r2) as [[x r3]|]; [|discriminate].
  destruct (RefHost.skip_ws r3) as [|c3 r4]; [discriminate|].
  destruct (Ascii.eqb c3 "}") eqn:E3.
  { apply Ascii.eqb_eq in E3. subst c3. inversion H; subst. eauto. }
  destruct (Ascii.eqb c3 ",") eqn:E4.
  { apply Ascii.eqb_eq in E4. subst c3. now apply IH in H. }
  exfalso. apply Ascii.eqb_neq in E3, E4.
  destruct c3 as [[] [] [] [] [] [] [] []]; try discriminate; congruence.
Qed.

Lemma read_value_string fuel cs s r :
  RefHost.read_value fuel cs = Some (VStr s, r) -> String.length s < length cs.
Proof.
  destruct fuel as [|fuel]; simpl; [discriminate|].
  pose proof (skip_ws_length cs) as Hl.
  destruct (RefHost.skip_ws cs) as [|c rest]; [discriminate|].
  destruct (RefHost.code c =? 34)%N.
  { destruct (RefHost.read_string (length rest) rest []) as [[t r']|] eqn:E;
      [|discriminate].
    intros H. inversion H; subst.
    apply read_string_length in E. simpl in *. lia. }
  destruct (Ascii.eqb c "[").
  { intros H. exfalso.
    assert (Hv : exists l, VStr s = VArr l).
    { destruct (RefHost.skip_ws rest) as [|c1 r1] eqn:Es.
      - destruct (RefHost.read_value fuel rest) as [[x r']|]; [|discriminate].
        now apply read_elements_array in H.
      - destruct (Ascii.eqb c1 "]") eqn:E1.
        + apply Ascii.eqb_eq in E1. subst c1. inversion H.
        + assert (H' : match RefHost.read_value fuel rest with
                       | Some (x, r') => RefHost.read_elements fuel r' [x]
                       | None => None
                       end = Some (VStr s, r)).
          { apply Ascii.eqb_neq in E1.
            destruct c1 as [[] [] [] [] [] [] [] []]; try exact H; congruence. }
          destruct (RefHost.read_value fuel rest) as [[x r']|]; [|discriminate].
          now apply read_elements_array in H'. }
    destruct Hv as [l Hv]. discriminate. }
  destruct (Ascii.eqb c "{").
  { intros H. exfalso.
    assert (Hv : exists l, VStr s = VObj l).
    { destruct (RefHost.skip_ws rest) as [|c1 r1] eqn:Es.
      - now apply read_members_object in H.
      - destruct (Ascii.eqb c1 "}") eqn:E1.
        + apply Ascii.eqb_eq in E1. subst c1. inversion H.
        + assert (H' : RefHost.read_members fuel rest [] = Some (VStr s, r)).
          { apply Ascii.eqb_neq in E1.
            destruct c1 as [[] [] [] [] [] [] [] []]; try exact H; congruence. }
          now apply read_members_object in H'. }
    destruct Hv as [l Hv]. discriminate. }
  destruct (Ascii.eqb c "n").
  { destruct (RefHost.starts_with "ull" rest); discriminate. }
  destruct (Ascii.eqb c "t").
  { destruct (RefHost.starts_with "rue" rest); discriminate. }
  destruct (Ascii.eqb c "f").
  { destruct (RefHost.starts_with "alse" rest); discriminate. }
  destruct (RefHost.read_number (c :: rest)) as [[x r']|]; discriminate.
Qed.

Lemma parse_string_shorter text s :
  JSON_parse text = Some (VStr s) -> String.length s < String.length text.
Proof.
  simpl. unfold RefHost.parse. intros H.
  destruct (RefHost.read_value (2 * length (list_ascii_of_string text) + 2)
              (list_ascii_of_string text)) as [[v r]|] eqn:E; [|discriminate].
  destruct (RefHost.skip_ws r); [|discriminate].
  inversion H; subst v.
  apply read_value_string in E.
  rewrite <- (string_of_list_ascii_of_string text) at 1.
  now rewrite string_of_list_length.
Qed.

(** No single unkeyed row that holds a string parses back from its normal
    form: the reference host reads no text as the string of the same
    characters. *)
Lemma string_row_never_parses_back s t :
  parseEditedContent
    (normalizeNodeData [ {| key := None; value := VStr s; type := t |} ])
    [ {| key := None; value := VStr s; type := t |} ]
  <> Ok [ {| key := None; value := VStr s; type := t |} ].
Proof.
  unfold normalizeNodeData, parseEditedContent. simpl.
  destruct (RefHost.parse s) as [v|] eqn:E; simpl; [|discriminate].
  intros H. inversion H; subst v.
  apply (parse_string_shorter s s) in E. lia.
Qed.





(** The first example of the spec, and a keyed row at the root of an object
    and of a number. *)
Example root_edit_example :
  updateJsonWithNodeValue (text_of_doc doc_ab) (Some []) [row_five] = Ok (Some "5")
  /\ updateJsonWithNodeValue (text_of_doc doc_ab) (Some []) [row_x]
     = Ok (Some (text_of_doc (VObj [("a", int 1); ("b", int 2); ("x", int 1)])))
  /\ updateJsonWithNodeValue "7" (Some []) [row_x]
     = Ok (Some (text_of_doc (VObj [("x", int 1)]))).
Proof. repeat split. Qed.

(** The same example through the save handler, for a node whose rows are a
    single unkeyed row: the edited text [5] becomes the document. *)
Example root_edit_saved_example :
  json (handleSave (Some node_root_scalar) "5" (store_of doc_ab)) = Some "5".
Proof. reflexivity. Qed.

(** For the root node of [{"a": 1, "b": 2}] with its two keyed rows, the
    edited text [5] has no property: no row comes out of it, and the save
    stores the document as it was. *)
Example root_edit_keyed_node_example :
  parseEditedContent "5" (text node_root_ab) = Ok []
  /\ json (handleSave (Some node_root_ab) "5" (store_of doc_ab))
     = Some (text_of_doc doc_ab).
Proof. split; reflexivity. Qed.



End Examples.

(** ** The further properties at the sample documents *)

Module CoverageExamples.

Import Samples MoreSamples.
#[local] Existing Instance RefHost.ref_number.
#[local] Existing Instance RefHost.ref_realm.
#[local] Existing Instance RefHost.ref_json.



(** X3, witness: the string [Al] under the key of the row [name: Al]. *)
Lemma inferred_type_keeps_value_witness :
  parseValueByType (VStr "Al") (inferType (Some row_name) (VStr "Al")) = VStr "Al".
Proof.
  apply (inferred_type_keeps_value (Some row_name) (VStr "Al")).
  - discriminate.
  - intros s E. inversion E; subst. repeat split; discriminate.
Defined.

(** X6, witness: the text of [[10, 20]] with no original rows. *)
Lemma parse_array_rows_witness :
  exists rows',
    parseEditedContent (text_of_doc doc_list) [] = Ok rows'
    /\ length rows' = length [int 10; int 20]
    /\ (forall i x, nth_error [int 10; int 20] i = Some x ->
          exists r, nth_error rows' i = Some r
                    /\ key r = Some (string_of_N (N.of_nat i))
                    /\ value r = x).
Proof.
  apply (parse_array_rows (text_of_doc doc_list) [int 10; int 20] []).
  - reflexivity.
  - repeat constructor; discriminate.
  - reflexivity.
Defined.

(** X8, witness: the customer node shows the customer object. *)
Lemma normalizedContent_shows_document_witness :
  normalizedContent (Some node_customer) (store_of doc_customer)
  = JSON_stringify (VObj customer_props).
Proof.
  apply (normalizedContent_shows_document node_customer (store_of doc_customer)
           (text_of_doc doc_customer) doc_customer (VObj customer_props)).
  - reflexivity.
  - reflexivity.
  - reflexivity.
  - discriminate.
Defined.


(** X10, witness: patching [customer.age] leaves [customer.name]. *)
Lemma patch_leaves_other_paths_witness :
  exists d',
    Some (text_of_doc
            (VObj [("customer",
                    VObj [("name", VStr "Al"); ("age", int 5); ("vip", VBool true)])]))
    = Some (JSON_stringify d')
    /\ locate d' ([SKey "customer"] ++ [SKey "name"]) = Some (VStr "Al").
Proof.
  apply (patch_leaves_other_paths (text_of_doc doc_vip) doc_vip
           [SKey "customer"] (SKey "age") (SKey "name") [] [] [row_five]).
  - reflexivity.
  - discriminate.
  - discriminate.
  - reflexivity.
  - reflexivity.
Defined.



(** X13, witness: [{"a": 1}] patched at [a] with the number 1. *)
Lemma patch_same_value_keeps_document_witness :
  updateJsonWithNodeValue (text_of_doc doc_a) (Some [SKey "a"]) [row_one]
  = Ok (Some (JSON_stringify doc_a)).
Proof.
  apply (patch_same_value_keeps_document (text_of_doc doc_a) doc_a [SKey "a"]
           (int 1) row_one).
  - reflexivity.
  - discriminate.
  - reflexivity.
  - reflexivity.
  - reflexivity.
Defined.

(** X14, witness: Edit and Save on the customer node. *)
Lemma save_unedited_object_witness :
  stores (save_click (Some node_customer)
            (handleEditClick (Some node_customer) (dialog_of doc_customer)))
  = {| json := Some (JSON_stringify doc_customer);
       contents := Some (JSON_stringify doc_customer);
       graph := Some (JSON_stringify doc_customer);
       toasts := toasts (stores (dialog_of doc_customer))
                 ++ [toast_success "Node value updated!"];
       isEditing := false |}.
Proof.
  apply (save_unedited_object node_customer (dialog_of doc_customer)
           (text_of_doc doc_customer) doc_customer customer_props).
  - reflexivity.
  - reflexivity.
  - reflexivity.
  - reflexivity.
  - repeat constructor; simpl; intuition discriminate.
  - intros k v [E|[E|[]]]; inversion E; subst; split; try discriminate;
      intros s Es; inversion Es; subst; repeat split; discriminate.
  - discriminate.
  - reflexivity.
Defined.

(** X15, witness: the text [5] typed into the root node of
    [{"a": 1, "b": 2}]. *)
Lemma save_text_without_entries_witness :
  handleSave (Some node_root_ab) "5" (store_of doc_ab)
  = {| json := Some (JSON_stringify doc_ab);
       contents := Some (JSON_stringify doc_ab);
       graph := Some (JSON_stringify doc_ab);
       toasts := toasts (store_of doc_ab) ++ [toast_success "Node value updated!"];
       isEditing := false |}.
Proof.
  apply (save_text_without_entries node_root_ab (store_of doc_ab)
           (text_of_doc doc_ab) doc_ab [("a", int 1); ("b", int 2)] "5" (int 5)).
  - reflexivity.
  - reflexivity.
  - reflexivity.
  - reflexivity.
  - reflexivity.
  - reflexivity.
Defined.

(** X16, witness: the customer node edited to the text of [{"age": 31}]. *)
Lemma save_never_removes_a_key_witness :
  exists d' props',
    json (handleSave (Some node_vip) (text_of_doc (VObj [("age", int 31)]))
            (store_of doc_vip))
    = Some (JSON_stringify d')
    /\ resolve d' (path_or_root node_vip) = VObj props'
    /\ (forall k,
          obj_get k [("name", VStr "Al"); ("age", int 30); ("vip", VBool true)] <> None ->
          obj_get k props' <> None).
Proof.
  apply (save_never_removes_a_key node_vip (store_of doc_vip)
           (text_of_doc doc_vip) doc_vip
           [("name", VStr "Al"); ("age", int 30); ("vip", VBool true)]
           (text_of_doc (VObj [("age", int 31)])) (VObj [("age", int 31)])).
  - reflexivity.
  - reflexivity.
  - reflexivity.
  - reflexivity.
  - reflexivity.
  - discriminate.
  - discriminate.
  - discriminate.
Defined.

(** X17, witness: the customer node edited to the text of [{"": 7}]: the
    customer object becomes the number 7. *)
Lemma save_empty_key_replaces_node_witness :
  exists d',
    json (handleSave (Some node_customer) (text_of_doc doc_empty_key)
            (store_of doc_customer))
    = Some (JSON_stringify d')
    /\ resolve d' [SKey "customer"]
       = parseValueByType (int 7) (inferType (find_row "" (text node_customer)) (int 7)).
Proof.
  apply (save_empty_key_replaces_node node_customer (store_of doc_customer)
           (text_of_doc doc_customer) doc_customer [SKey "customer"]
           (VObj customer_props) (text_of_doc doc_empty_key) (int 7)).
  - reflexivity.
  - reflexivity.
  - reflexivity.
  - discriminate.
  - reflexivity.
  - reflexivity.
  - reflexivity.
Defined.

(** X18, witness: Edit and Save on the number node [a] of [{"a": 1}]. *)
Lemma save_unedited_leaf_witness :
  json (stores (save_click (Some node_a)
                  (handleEditClick (Some node_a) (dialog_of doc_a))))
  = Some (JSON_stringify doc_a).
Proof.
  apply (save_unedited_leaf node_a (dialog_of doc_a) (text_of_doc doc_a) doc_a
           (int 1) row_one).
  - reflexivity.
  - reflexivity.
  - reflexivity.
  - discriminate.
  - reflexivity.
  - reflexivity.
  - intros _. reflexivity.
Defined.

(** X19, witness: in the earlier snapshot the row [age: 31] replaces the
    customer object, and [name] and [vip] are lost. *)
Lemma earlier_update_replaces_object_witness :
  exists d' props',
    updateJsonWithNodeValue_earlier (text_of_doc doc_vip) (Some [SKey "customer"])
      [row_age]
      = Ok (Some (JSON_stringify d'))
    /\ resolve d' [SKey "customer"] = VObj props'
    /\ (forall k, (forall r, In r [row_age] -> key r <> Some k) ->
                  obj_get k props' = None)
    /\ (forall before r after k,
          [row_age] = before ++ r :: after ->
          key r = Some k -> k <> "" -> creates k ->
          (forall r', In r' after -> key r' <> Some k) ->
          obj_get k props'
          = Some (parseValueByType_earlier (value r) (type r))).
Proof.
  apply (earlier_update_replaces_object (text_of_doc doc_vip) doc_vip
           [SKey "customer"]
           [("name", VStr "Al"); ("age", int 30); ("vip", VBool true)] [row_age]).
  - reflexivity.
  - reflexivity.
  - reflexivity.
Defined.

Example earlier_update_example :
  updateJsonWithNodeValue_earlier (text_of_doc doc_vip) (Some [SKey "customer"])
    [row_age]
  = Ok (Some (text_of_doc (VObj [("customer", VObj [("age", int 31)])]))).
Proof. reflexivity. Qed.


Example earlier_save_example :
  json (handleSave_earlier (Some node_customer) (text_of_doc doc_nick)
          (store_of doc_customer))
  = Some (text_of_doc (VObj [("customer", VObj [("nick", VStr "7")])])).
Proof. reflexivity. Qed.

End CoverageExamples.
